(** * cache/redis_client.go: the Redis remote-cache client

    A shallow embedding of the Redis client of the cache package
    (configuration validation, client construction, the batched
    [GetMulti] read path, the asynchronous write path and the unsafe
    string-to-bytes conversion), and the properties established of it.

    Conventions.
    - Go's [int] is modelled by [Z]; lengths and slice indices, which are
      never negative, by [nat].
    - A Go [error] is [option error], [None] being [nil].
    - A Go map value is [option (gmap _ _)], [None] being the nil map.
    - Logging and the Prometheus metrics do not influence any value
      computed by the client; they are left out of the state. *)

From Stdlib Require Import ZArith Lia.
From Stdlib.Strings Require Import Byte.
From stdpp Require Import base gmap strings list fin_maps.

Open Scope Z_scope.

(** ** Errors *)

Inductive error : Type :=
  | errRedisConfigNoEndpoint               (* "no redis endpoint provided" *)
  | errRedisMaxAsyncConcurrencyNotPositive (* "max async concurrency must be positive" *)
  | errTLSConfig                           (* an error of TLS.GetTLSConfig *)
  | SizeExceededError                      (* write rejected before enqueue *)
  | QueueFullError                         (* write rejected at enqueue *)
  | CancellationError                      (* gate-permit acquisition cancelled *)
  | BackendError (code : Z).               (* transport / protocol failure *)

#[global] Instance error_eq_dec : EqDecision error.
Proof. solve_decision. Defined.

(** ** Configuration *)

(** [dstls.ClientConfig] is declared in another package; the client only
    observes whether [GetTLSConfig] yields a configuration or an error. *)
Record ClientConfig : Type := {
  GetTLSConfig : option error
}.

(** [RedisClientConfig].  [Endpoint] holds the rendering
    [c.Endpoint.String()] of the [flagext.StringSliceCSV] value, the only
    way the client reads it.  Durations are nanosecond counts. *)
Record RedisClientConfig : Type := {
  Endpoint : string;
  Username : string;
  Password : string;
  DB : Z;
  MasterName : string;
  DialTimeout : Z;
  ReadTimeout : Z;
  WriteTimeout : Z;
  ConnectionPoolSize : Z;
  MinIdleConnections : Z;
  IdleTimeout : Z;
  MaxConnectionAge : Z;
  MaxItemSize : Z;
  MaxAsyncConcurrency : Z;
  MaxAsyncBufferSize : Z;
  MaxGetMultiConcurrency : Z;
  GetMultiBatchSize : Z;
  TLSEnabled : bool;
  TLS : ClientConfig
}.

(** [func (c *RedisClientConfig) Validate() error] *)
Definition Validate (c : RedisClientConfig) : option error :=
  if decide (Endpoint c = EmptyString) then Some errRedisConfigNoEndpoint
  else if decide (MaxAsyncConcurrency c <= 0) then
    Some errRedisMaxAsyncConcurrencyNotPositive
  else None.

(** Go's conversion [uint64(x)] of an [int]. *)
Definition uint64 (x : Z) : Z := x mod 2 ^ 64.

(** ** The asynchronous write queue and the base client *)

(** A deferred backend operation, as captured by the closures that
    [SetAsync] and [Delete] hand to the base client. *)
Inductive backendOp : Type :=
  | OpSet (key : string) (value : list byte) (ttl : Z)
  | OpDel (key : string).

#[global] Instance byte_eq_dec : EqDecision byte.
Proof. intros x y. destruct (Byte.byte_eq_dec x y); [left | right]; done. Defined.

#[global] Instance backendOp_eq_dec : EqDecision backendOp.
Proof. solve_decision. Defined.

(** Modelled from the spec: the asynchronous write queue of the base
    client (the type of its field [asyncQueue], with its constructor, [enqueue] and [stop]) is
    not part of this file's source.  It is a bounded buffer of at most
    [bufferSize] tasks served by [concurrency] workers; [enqueue] never
    blocks and returns false when the buffer is full or the queue has been
    stopped; [stop] makes the queue refuse new work and is idempotent. *)
Record AsyncWriteQueue : Type := {
  queue : list backendOp;
  bufferSize : Z;
  concurrency : Z;
  stopped : bool
}.

(** Modelled from the spec: the constructor of the write queue, with its
    [bufferSize] and [concurrency] parameters; the queue starts empty and
    running. *)
Definition newAsyncQueue (length concurrency : Z) : AsyncWriteQueue :=
  {| queue := []; bufferSize := length; concurrency := concurrency;
     stopped := false |}.

(** Modelled from the spec: [enqueue], a non-blocking attempt to place a
    task on the bounded queue; false when the queue is stopped or full. *)
Definition enqueue (q : AsyncWriteQueue) (task : backendOp) : AsyncWriteQueue * bool :=
  if stopped q then (q, false)
  else if decide (bufferSize q <= Z.of_nat (length (queue q))) then (q, false)
  else ({| queue := queue q ++ [task]; bufferSize := bufferSize q;
           concurrency := concurrency q; stopped := stopped q |}, true).

(** Modelled from the spec: [stop], after which the queue accepts no new
    work; idempotent. *)
Definition stop (q : AsyncWriteQueue) : AsyncWriteQueue :=
  {| queue := queue q; bufferSize := bufferSize q;
     concurrency := concurrency q; stopped := true |}.

(** Modelled from the spec: [baseClient] and [newBaseClient] are declared
    in another file of the package.  The base client holds the item-size
    ceiling and the write queue. *)
Record baseClient : Type := {
  maxItemSize : Z;
  asyncQueue : AsyncWriteQueue
}.

(** Modelled from the spec: [newBaseClient], called by [NewRedisClient]
    with the item-size ceiling, the buffer size and the concurrency of the
    write queue. *)
Definition newBaseClient (maxItemSize : Z) (asyncBuffSize asyncConcurrency : Z)
  : baseClient :=
  {| maxItemSize := maxItemSize;
     asyncQueue := newAsyncQueue asyncBuffSize asyncConcurrency |}.

(** ** The client *)

(** Modelled from the spec: the gate of package [gate] is a counting
    admission limiter created with a maximum number of permits. *)
Record Gate : Type := {
  maxConcurrent : Z
}.

(** Modelled from the spec: [gate.New], the gate of the given maximum
    permit count. *)
Definition gate_New (maxConcurrent : Z) : Gate :=
  {| maxConcurrent := maxConcurrent |}.

(** [type redisClient struct].  The embedded [redis.UniversalClient] is the
    backend; its replies enter the model through the environment of each
    operation.  [closed] records that [Close] has been called on it. *)
Record redisClient : Type := {
  base : baseClient;
  config : RedisClientConfig;
  getMultiGate : option Gate;
  closed : bool
}.

(** [func NewRedisClient(logger, name, config, reg) (RemoteCacheClient, error)] *)
Definition NewRedisClient (config : RedisClientConfig)
  : option redisClient * option error :=
  match (if TLSEnabled config then GetTLSConfig (TLS config) else None) with
  | Some err => (None, Some err)
  | None =>
    let c := {| base := newBaseClient (uint64 (MaxItemSize config))
                          (MaxAsyncBufferSize config)
                          (MaxAsyncConcurrency config);
                config := config;
                getMultiGate := None;
                closed := false |} in
    let c := if decide (MaxGetMultiConcurrency config > 0)
             then {| base := base c; config := config;
                     getMultiGate := Some (gate_New (MaxGetMultiConcurrency config));
                     closed := closed c |}
             else c in
    (Some c, None)
  end.

(** ** Strings, byte slices and [stringToBytes] *)

(** The copying conversion [[]byte(s)]: the bytes of [s], in order. *)
Definition bytesOfString (s : string) : list byte :=
  String.list_byte_of_string s.

Module Unsafe.

(** Byte-addressed memory. *)
Abbreviation memory := (gmap Z byte).

(** The runtime representation of a string value, [reflect.StringHeader]:
    a data pointer and a length. *)
Record stringHeader : Type := {
  strData : Z;
  strLen : Z
}.

(** The runtime representation of a slice value, [reflect.SliceHeader]. *)
Record sliceHeader : Type := {
  Data : Z;
  Len : Z;
  Cap : Z
}.

(** The words of [struct { string; Cap int }{s, cap}] in memory: the two
    words of the embedded string followed by the [Cap] field. *)
Definition structWords (s : stringHeader) (cap : Z) : list Z :=
  [strData s; strLen s; cap].

(** Loading a [[]byte] through a pointer to three consecutive words. *)
Definition loadSliceHeader (ws : list Z) : sliceHeader :=
  {| Data := nth 0 ws 0; Len := nth 1 ws 0; Cap := nth 2 ws 0 |}.

(** [func stringToBytes(s string) []byte]: the address of the value
    [struct{string; Cap int}{s, len(s)}] is cast, through
    [unsafe.Pointer], to a pointer to [[]byte] and dereferenced. *)
Definition stringToBytes (s : stringHeader) : sliceHeader :=
  loadSliceHeader (structWords s (strLen s)).

(** The [n] bytes stored from address [p] on; [None] when one of them is
    not mapped. *)
Fixpoint readBytes (mem : memory) (p : Z) (n : nat) : option (list byte) :=
  match n with
  | O => Some []
  | S n' =>
    match mem !! p, readBytes mem (p + 1) n' with
    | Some b, Some bs => Some (b :: bs)
    | _, _ => None
    end
  end.

Fixpoint writeBytes (mem : memory) (p : Z) (bs : list byte) : memory :=
  match bs with
  | [] => mem
  | b :: bs' => <[p := b]> (writeBytes mem (p + 1) bs')
  end.

(** What a program reads from a string and from a slice. *)
Definition stringContents (mem : memory) (s : stringHeader) : option (list byte) :=
  readBytes mem (strData s) (Z.to_nat (strLen s)).

Definition sliceContents (mem : memory) (b : sliceHeader) : option (list byte) :=
  readBytes mem (Data b) (Z.to_nat (Len b)).

(** A string value held by the runtime: its bytes stored at [p]. *)
Definition allocString (mem : memory) (p : Z) (s : string) : memory * stringHeader :=
  (writeBytes mem p (bytesOfString s),
   {| strData := p; strLen := Z.of_nat (String.length s) |}).

End Unsafe.

(** The value of [stringToBytes(val)] as [GetMulti] stores it: the bytes
    seen through the slice header that the conversion yields for the
    string [val] held in memory. *)
Definition stringToBytes (val : string) : list byte :=
  let '(mem, s) := Unsafe.allocString ∅ 0 val in
  default [] (Unsafe.sliceContents mem (Unsafe.stringToBytes s)).

(** ** The batched read path *)

(** The dynamic type of one element of an [MGet] response. *)
Inductive reply : Type :=
  | RString (val : string)   (* case string *)
  | RNil                     (* case nil: a miss *)
  | ROther (v : Z).          (* any other type *)

#[global] Instance reply_eq_dec : EqDecision reply.
Proof. solve_decision. Defined.

(** A Go computation either returns or panics. *)
Inductive outcome (A : Type) : Type :=
  | Returns (a : A)
  | Panics.
Arguments Returns {A} a.
Arguments Panics {A}.

(** The environment of one [GetMulti] call.
    - [MGet start ks] is what [c.MGet(ctx, ks...).Result()] yields for the
      batch that starts at index [start]: the response and the error.
    - [gateStart n] is the outcome of the gate-permit acquisition for
      the [n]-th batch ([Some] is the cancellation error).
    - [completed start] tells, for a call that a failed acquisition cuts
      short, whether the batch that starts at index [start] has completed
      by the time the call returns.
    - [choice] are the scheduler's decisions: the batches of a call run
      concurrently and serialise on the mutex [mu]. *)
Record callEnv : Type := {
  MGet : nat -> list string -> list reply * option error;
  gateStart : nat -> option error;
  completed : nat -> bool;
  choice : list nat
}.

(** The order in which the goroutines of [l] run, for given decisions:
    each goroutine is placed among those spawned after it. *)
Fixpoint schedule {A : Type} (choice : list nat) (l : list A) : list A :=
  match l with
  | [] => []
  | x :: l' =>
    let r := schedule (tail choice) l' in
    take (hd O choice) r ++ x :: drop (hd O choice) r
  end.

(** The elements of [keys] at the indices of [startIndex, endIndex). *)
Definition sliceOf (keys : list string) (startIndex endIndex : nat) : list string :=
  take (endIndex - startIndex) (drop startIndex keys).

(** [keys[startIndex:endIndex]], for a slice whose capacity is its length. *)
Definition sliceKeys (keys : list string) (startIndex endIndex : nat)
  : outcome (list string) :=
  if decide (startIndex <= endIndex <= length keys)%nat
  then Returns (sliceOf keys startIndex endIndex)
  else Panics.

(** The loop [for i := 0; i < len(resp); i++] of [GetMulti], with [n]
    iterations left. *)
Fixpoint mergeLoop (n i : nat) (currentKeys : list string) (resp : list reply)
    (results : gmap string (list byte)) : outcome (gmap string (list byte)) :=
  match n with
  | O => Returns results
  | S n' =>
    match currentKeys !! i with
    | None => Panics                      (* index out of range *)
    | Some key =>
      let results :=
        match resp !! i with
        | Some (RString val) => <[key := stringToBytes val]> results
        | _ => results
        end in
      mergeLoop n' (S i) currentKeys resp results
    end
  end.

(** The state shared by the batches of one call: the result map, and the
    record of the [MGet] invocations that have returned so far. *)
Record callState : Type := {
  results : gmap string (list byte);
  mgetCalls : list (list string)
}.

(** The function literal that [GetMulti] passes to [doWithBatch]. *)
Definition getMultiBatch (env : callEnv) (keys : list string)
    (startIndex endIndex : nat) (st : callState)
  : outcome (callState * option error) :=
  match sliceKeys keys startIndex endIndex with
  | Panics => Panics
  | Returns currentKeys =>
    let '(resp, err) := MGet env startIndex currentKeys in
    let calls := mgetCalls st ++ [currentKeys] in
    match err with
    | Some _ => Returns ({| results := results st; mgetCalls := calls |}, None)
    | None =>
      match mergeLoop (length resp) 0 currentKeys resp (results st) with
      | Panics => Panics
      | Returns m => Returns ({| results := m; mgetCalls := calls |}, None)
      end
    end
  end.

(** Modelled from the spec: [doWithBatch] is declared in another file of
    the package; this is its dispatch loop.  [doWithBatch] partitions [0, totalSize) into contiguous ranges of at
    most [batchSize] indices; for each range in turn it acquires a gate
    permit (when there is a gate) and then runs [f] on the range
    concurrently with the others.  It returns after every batch has
    completed, with the first error of [f], if any.  An acquisition that
    fails with the cancellation error ends the dispatch: the call is
    cancelled, and returns what the batches that have completed by then
    produced, and no error.  The spec requires [batchSize > 0]; for other
    values the whole range is one batch.  The loop returns the ranges
    dispatched and whether it was cut short. *)
Fixpoint dispatchLoop (fuel n i totalSize batchSize : nat) (ga : option Gate)
    (start : nat -> option error) : list (nat * nat) * bool :=
  match fuel with
  | O => ([], false)
  | S fuel' =>
    if decide (totalSize <= i)%nat then ([], false)
    else
      let j := Nat.min (i + batchSize) totalSize in
      match (match ga with Some _ => start n | None => None end) with
      | Some _ => ([], true)
      | None =>
        let '(rs, cancelled) :=
          dispatchLoop fuel' (S n) (i + batchSize) totalSize batchSize ga start in
        ((i, j) :: rs, cancelled)
      end
  end.

(** Modelled from the spec: the batches of [doWithBatch] run
    concurrently and the call waits for them; what they do to the shared
    state is what running them one after the other, in the order in which
    they take effect, does.  The first error of [f] is kept. *)
Fixpoint runBatches {St : Type} (f : nat -> nat -> St -> outcome (St * option error))
    (rs : list (nat * nat)) (st : St) : outcome (St * option error) :=
  match rs with
  | [] => Returns (st, None)
  | (a, b) :: rs' =>
    match f a b st with
    | Panics => Panics
    | Returns (st', err) =>
      match runBatches f rs' st' with
      | Panics => Panics
      | Returns (st'', err') =>
        Returns (st'', match err with Some e => Some e | None => err' end)
      end
    end
  end.

(** Modelled from the spec: the ranges that [doWithBatch] dispatches, in
    the order of dispatch, and whether the dispatch was cut short by a
    failed acquisition. *)
Definition dispatched (env : callEnv) (totalSize : nat) (batchSize : Z)
    (ga : option Gate) : list (nat * nat) * bool :=
  dispatchLoop totalSize 0 0 totalSize (Z.to_nat batchSize) ga (gateStart env).

(** Modelled from the spec: the ranges on which [f] has run when
    [doWithBatch] returns: all the dispatched ones, or, in a cancelled call,
    those that have completed by then. *)
Definition completedBatches (env : callEnv) (totalSize : nat) (batchSize : Z)
    (ga : option Gate) : list (nat * nat) :=
  let '(rs, cancelled) := dispatched env totalSize batchSize ga in
  if cancelled then filter (fun r => completed env r.1 = true) rs else rs.

(** Modelled from the spec: [doWithBatch(ctx, totalSize, batchSize, ga, f)]
    itself. *)
Definition doWithBatch {St : Type} (env : callEnv) (totalSize : nat) (batchSize : Z)
    (ga : option Gate) (f : nat -> nat -> St -> outcome (St * option error))
    (st : St) : outcome (St * option error) :=
  if decide (batchSize <= 0) then f O totalSize st
  else
    match runBatches f
            (schedule (choice env) (completedBatches env totalSize batchSize ga))
            st with
    | Panics => Panics
    | Returns (st', err) =>
      Returns (st', if (dispatched env totalSize batchSize ga).2 then None else err)
    end.

(** [func (c *redisClient) GetMulti(ctx, keys, _ ...Option) map[string][]byte].
    The second component is the record of the backend invocations. *)
Definition GetMulti (c : redisClient) (env : callEnv) (keys : list string)
  : outcome (option (gmap string (list byte)) * list (list string)) :=
  if decide (length keys = O) then Returns (None, [])
  else
    match doWithBatch env (length keys) (GetMultiBatchSize (config c))
            (getMultiGate c) (getMultiBatch env keys)
            {| results := ∅; mgetCalls := [] |} with
    | Panics => Panics
    | Returns (st, Some _) => Returns (None, mgetCalls st)
    | Returns (st, None) => Returns (Some (results st), mgetCalls st)
    end.

(** ** The asynchronous write path *)

(** Modelled from the spec: the size guard of the base client.  With a
    ceiling of 0 every item is permitted; otherwise an item is permitted
    iff its value is no longer than the ceiling. *)
Definition permits (maxSize : Z) (value : list byte) : bool :=
  if decide (maxSize = 0) then true
  else bool_decide (Z.of_nat (length value) <= maxSize).

Definition withQueue (b : baseClient) (q : AsyncWriteQueue) : baseClient :=
  {| maxItemSize := maxItemSize b; asyncQueue := q |}.

(** Modelled from the spec: [baseClient.setAsync] is declared in another
    file of the package.  It fails with the size-exceeded error, without
    enqueueing, when the size guard rejects the item; otherwise it wraps
    the backend call [f] in a task and tries to enqueue it, failing with
    the queue-full error when the queue refuses the task. *)
Definition setAsync (b : baseClient) (key : string) (value : list byte) (ttl : Z)
    (f : string -> list byte -> Z -> backendOp) : baseClient * option error :=
  if permits (maxItemSize b) value then
    let '(q, ok) := enqueue (asyncQueue b) (f key value ttl) in
    (withQueue b q, if ok then None else Some QueueFullError)
  else (b, Some SizeExceededError).

(** Modelled from the spec: [baseClient.delete], enqueued exactly like a
    set, without a size check. *)
Definition delete_ (b : baseClient) (key : string) (f : string -> backendOp)
  : baseClient * option error :=
  let '(q, ok) := enqueue (asyncQueue b) (f key) in
  (withQueue b q, if ok then None else Some QueueFullError).

Definition withBase (c : redisClient) (b : baseClient) : redisClient :=
  {| base := b; config := config c; getMultiGate := getMultiGate c;
     closed := closed c |}.

(** [func (c *redisClient) SetAsync(ctx, key, value, ttl) error].  The
    function literal calls [c.Set] with the captured [value]. *)
Definition SetAsync (c : redisClient) (key : string) (value : list byte) (ttl : Z)
  : redisClient * option error :=
  let '(b, err) :=
    setAsync (base c) key value ttl (fun key _buf ttl => OpSet key value ttl) in
  (withBase c b, err).

(** [func (c *redisClient) Delete(ctx, key) error] *)
Definition Delete (c : redisClient) (key : string) : redisClient * option error :=
  let '(b, err) := delete_ (base c) key (fun key => OpDel key) in
  (withBase c b, err).

(** [func (c *redisClient) Stop()]: stops the queue, then closes the
    backend client (an error of [Close] is only logged). *)
Definition Stop (c : redisClient) : redisClient :=
  {| base := withQueue (base c) (stop (asyncQueue (base c)));
     config := config c; getMultiGate := getMultiGate c; closed := true |}.

(** The client together with the record of the [Set] and [Del] calls that
    have reached the backend. *)
Record system : Type := {
  client : redisClient;
  backendCalls : list backendOp
}.

(** Modelled from the spec: one step of a queue worker, which takes the
    oldest task and executes it against the backend.  The spec does not
    promise that queued tasks are dropped at [stop], so the step is not
    disabled by it. *)
Definition workerStep (s : system) : system :=
  match queue (asyncQueue (base (client s))) with
  | [] => s
  | task :: rest =>
    let q := asyncQueue (base (client s)) in
    {| client := withBase (client s)
                   (withQueue (base (client s))
                      {| queue := rest; bufferSize := bufferSize q;
                         concurrency := concurrency q; stopped := stopped q |});
       backendCalls := backendCalls s ++ [task] |}
  end.

(** What can happen to a client: the calls of its users and the steps of
    its workers. *)
Inductive event : Type :=
  | ESetAsync (key : string) (value : list byte) (ttl : Z)
  | EDelete (key : string)
  | EStop
  | EWorker.

(** The result observed by the caller of an event, if it has one. *)
Inductive result : Type :=
  | RError (err : option error)
  | RUnit.

Definition step (s : system) (e : event) : system * result :=
  match e with
  | ESetAsync key value ttl =>
    let '(c, err) := SetAsync (client s) key value ttl in
    ({| client := c; backendCalls := backendCalls s |}, RError err)
  | EDelete key =>
    let '(c, err) := Delete (client s) key in
    ({| client := c; backendCalls := backendCalls s |}, RError err)
  | EStop => ({| client := Stop (client s); backendCalls := backendCalls s |}, RUnit)
  | EWorker => (workerStep s, RUnit)
  end.


(** ** Concurrent execution of the batches *)

Module Concurrent.

(** The life of the goroutine of one batch. *)
Inductive phase : Type :=
  | Pending      (* not dispatched yet *)
  | Running      (* holds its permit, executes the backend call *)
  | Finished.

#[global] Instance phase_eq_dec : EqDecision phase.
Proof. solve_decision. Defined.

(** Modelled from the spec: the gate and the dispatch of [doWithBatch]
    as a transition system.  [held] is the number of permits of the
    gate that are taken; [calls] are the [GetMulti] calls in progress on
    the client, each with the phases of its batches. *)
Record sys : Type := {
  gate : option Gate;
  held : nat;
  calls : list (list phase)
}.











(** The client starts [GetMulti] calls with the given numbers of
    batches. *)
Definition start (c : redisClient) (batches : list nat) : sys :=
  {| gate := getMultiGate c; held := O;
     calls := (λ n, replicate n Pending) <$> batches |}.

End Concurrent.




(** ** Notions used to state the properties of [GetMulti] *)

(** The contract of the backend (the response of a successful [MGet] has
    one element per key), in the weaker form that the client relies on: the
    response is no longer than the batch. *)
Definition respFits (env : callEnv) : Prop :=
  forall (start : nat) (ks : list string),
    (MGet env start ks).2 = None ->
    (length (MGet env start ks).1 <= length ks)%nat.

(** The batches of a [GetMulti] call: the index ranges on which the
    function literal has run when the call returns. *)
Definition batches (c : redisClient) (env : callEnv) (keys : list string)
  : list (nat * nat) :=
  if decide (GetMultiBatchSize (config c) <= 0) then [(O, length keys)]
  else completedBatches env (length keys) (GetMultiBatchSize (config c))
         (getMultiGate c).

(** The backend's reply within the batch [r] for position [i] of the
    keys: absent when the [MGet] of the batch failed. *)
Definition replyIn (env : callEnv) (keys : list string) (r : nat * nat) (i : nat)
  : option reply :=
  match MGet env r.1 (sliceOf keys r.1 r.2) with
  | (resp, None) => resp !! (i - r.1)%nat
  | (_, Some _) => None
  end.

Definition holds (i : nat) (r : nat * nat) : bool :=
  bool_decide (r.1 <= i < r.2)%nat.

(** The backend's reply for position [i] of the keys of a call: the reply
    within the batch that holds [i]; absent when no batch holding [i] has
    run. *)
Definition replyOf (c : redisClient) (env : callEnv) (keys : list string) (i : nat)
  : option reply :=
  r ← find (holds i) (batches c env keys);
  replyIn env keys r i.

(** The batches of an uncancelled call, in closed form. *)
Definition batchRange (totalSize batchSize n : nat) : nat * nat :=
  ((n * batchSize)%nat, Nat.min (n * batchSize + batchSize) totalSize).

Definition numBatches (totalSize batchSize : nat) : nat :=
  ((totalSize + batchSize - 1) / batchSize)%nat.

(** The number of acquisitions granted before the first of the
    acquisitions [n], [n+1], ..., [n+limit-1] that fails. *)
Fixpoint grantedFrom (start : nat -> option error) (n limit : nat) : nat :=
  match limit with
  | O => O
  | S limit' =>
    match start n with
    | Some _ => O
    | None => S (grantedFrom start (S n) limit')
    end
  end.

(** [v] is the value of a hit for [key] in one of the batches [rs]: the
    reply for some position of [key] is a string, whose bytes are [v]. *)
Definition hitIn (env : callEnv) (keys : list string) (rs : list (nat * nat))
    (key : string) (v : list byte) : Prop :=
  exists r i val,
    r ∈ rs /\ holds i r = true /\ keys !! i = Some key /\
    replyIn env keys r i = Some (RString val) /\ v = stringToBytes val.

(** All the ranges lie within [0, n]. *)
Definition inBounds (n : nat) (rs : list (nat * nat)) : Prop :=
  forall r, r ∈ rs -> (r.1 <= r.2 <= n)%nat.

(** The number of batches dispatched when [limit] are due: all of them
    without a gate, and with a gate those before the first acquisition
    that fails. *)
Definition granted (ga : option Gate) (start : nat -> option error) (limit : nat)
  : nat :=
  match ga with
  | None => limit
  | Some _ => grantedFrom start O limit
  end.

(** Reading a key in the map that [GetMulti] returns; a nil map has no
    entries. *)
Definition lookupResult (o : option (gmap string (list byte))) (key : string)
  : option (list byte) :=
  m ← o; m !! key.

(** The [MGet] of the batch [r] fails. *)
Definition batchFails (env : callEnv) (keys : list string) (r : nat * nat) : Prop :=
  (MGet env r.1 (sliceOf keys r.1 r.2)).2 <> None.

(** ** Example values *)

(** A configuration that [Validate] rejects twice over: no endpoint and a
    zero async concurrency; TLS is disabled. *)
Definition invalidConfig : RedisClientConfig :=
  {| Endpoint := ""; Username := ""; Password := ""; DB := 0; MasterName := "";
     DialTimeout := 5000000000; ReadTimeout := 3000000000;
     WriteTimeout := 3000000000; ConnectionPoolSize := 100;
     MinIdleConnections := 10; IdleTimeout := 300000000000;
     MaxConnectionAge := 0; MaxItemSize := 16 * 1024 * 1024;
     MaxAsyncConcurrency := 0; MaxAsyncBufferSize := 25000;
     MaxGetMultiConcurrency := 100; GetMultiBatchSize := 100;
     TLSEnabled := false; TLS := {| GetTLSConfig := None |} |}.

(** The flag defaults of [RegisterFlagsWithPrefix], with an endpoint, and
    the given read-path and size parameters. *)
Definition exampleConfig (maxItemSize maxGetMultiConcurrency batchSize : Z)
  : RedisClientConfig :=
  {| Endpoint := "localhost:6379"; Username := ""; Password := ""; DB := 0;
     MasterName := "";
     DialTimeout := 5000000000; ReadTimeout := 3000000000;
     WriteTimeout := 3000000000; ConnectionPoolSize := 100;
     MinIdleConnections := 10; IdleTimeout := 300000000000;
     MaxConnectionAge := 0; MaxItemSize := maxItemSize;
     MaxAsyncConcurrency := 50; MaxAsyncBufferSize := 25000;
     MaxGetMultiConcurrency := maxGetMultiConcurrency;
     GetMultiBatchSize := batchSize;
     TLSEnabled := false; TLS := {| GetTLSConfig := None |} |}.

(** The client that [NewRedisClient] builds from [exampleConfig]. *)
Definition exampleClient (maxItemSize maxGetMultiConcurrency batchSize : Z)
  : redisClient :=
  {| base := newBaseClient (uint64 maxItemSize) 25000 50;
     config := exampleConfig maxItemSize maxGetMultiConcurrency batchSize;
     getMultiGate := if decide (maxGetMultiConcurrency > 0)
                     then Some (gate_New maxGetMultiConcurrency) else None;
     closed := false |}.

(** A backend that stores under every key the key itself, except that
    ["miss"] is not stored and ["odd"] holds a value that is not a string.
    The gate, if there is one, grants the first [granted] acquisitions and
    fails the next ones with the cancellation error; when that cuts a call
    short, the batch that starts at index 2 is still in flight. *)
Definition echoReply (key : string) : reply :=
  if decide (key = "miss") then RNil
  else if decide (key = "odd") then ROther 7
  else RString key.

Definition echoEnv (granted : nat) (choice : list nat) : callEnv :=
  {| MGet := fun _ ks => (echoReply <$> ks, None);
     gateStart := fun n => if decide (n < granted)%nat then None
                           else Some CancellationError;
     completed := fun start => bool_decide (start <> 2%nat);
     choice := choice |}.

(** A backend that breaks its contract: it answers every batch with one
    reply more than there are keys. *)
Definition longReplyEnv : callEnv :=
  {| MGet := fun _ ks => (RNil :: (echoReply <$> ks), None);
     gateStart := fun _ => None;
     completed := fun _ => true;
     choice := [] |}.

(** The same backend, except that the batch that starts at index 0 fails
    with a transport error. *)
Definition failFirstEnv : callEnv :=
  {| MGet := fun start ks =>
       if decide (start = O) then ([], Some (BackendError 1))
       else (echoReply <$> ks, None);
     gateStart := fun _ => None;
     completed := fun _ => true;
     choice := [] |}.

(** ** Flag defaults *)

(** [func (c *RedisClientConfig) RegisterFlagsWithPrefix(prefix, f)].
    [f.StringVar], [f.IntVar], [f.DurationVar] and [f.BoolVar] store the
    default in the field when the flag is registered; [f.Var] leaves
    [Endpoint] and [Password] as they are.  [registerTLS] is what
    [c.TLS.RegisterFlagsWithPrefix], of another package, makes of the TLS
    settings. *)
Definition RegisterFlagsWithPrefix (registerTLS : ClientConfig -> ClientConfig)
    (c : RedisClientConfig) : RedisClientConfig :=
  {| Endpoint := Endpoint c;
     Username := "";
     Password := Password c;
     DB := 0;
     MasterName := "";
     DialTimeout := 1000000000 * 5;
     ReadTimeout := 1000000000 * 3;
     WriteTimeout := 1000000000 * 3;
     ConnectionPoolSize := 100;
     MinIdleConnections := 10;
     IdleTimeout := 60000000000 * 5;
     MaxConnectionAge := 0;
     MaxItemSize := 16 * 1024 * 1024;
     MaxAsyncConcurrency := 50;
     MaxAsyncBufferSize := 25000;
     MaxGetMultiConcurrency := 100;
     GetMultiBatchSize := 100;
     TLSEnabled := false;
     TLS := registerTLS (TLS c) |}.

(** ** The metrics of the read path *)


(** The loop of [GetMulti] with its accumulator [cacheHitBytes]. *)
Fixpoint mergeLoopMetered (n i : nat) (currentKeys : list string) (resp : list reply)
    (results : gmap string (list byte)) (cacheHitBytes : nat)
  : outcome (gmap string (list byte) * nat) :=
  match n with
  | O => Returns (results, cacheHitBytes)
  | S n' =>
    match currentKeys !! i with
    | None => Panics
    | Some key =>
      match resp !! i with
      | Some (RString val) =>
        mergeLoopMetered n' (S i) currentKeys resp
          (<[key := stringToBytes val]> results)
          (cacheHitBytes + String.length val)
      | _ => mergeLoopMetered n' (S i) currentKeys resp results cacheHitBytes
      end
    end
  end.


(** ** Notions used to state further properties *)

(** The hits of a response: the keys with a string reply, in order, with
    the bytes of the reply. *)
Definition hitOf (kr : string * reply) : option (string * list byte) :=
  match kr.2 with
  | RString val => Some (kr.1, bytesOfString val)
  | _ => None
  end.

Definition hitsOf (currentKeys : list string) (resp : list reply)
  : list (string * list byte) :=
  omap hitOf (zip currentKeys resp).

(** The total byte length of the string replies of a response. *)
Definition hitBytes (resp : list reply) : nat :=
  foldr (fun r acc => match r with RString val => String.length val + acc | _ => acc end)%nat
        O resp.

(** The [MGet] of the batch [r] succeeds with more replies than keys. *)
Definition overlong (env : callEnv) (keys : list string) (r : nat * nat) : Prop :=
  (MGet env r.1 (sliceOf keys r.1 r.2)).2 = None /\
  (length (sliceOf keys r.1 r.2) < length (MGet env r.1 (sliceOf keys r.1 r.2)).1)%nat.

(** The environment [env] under other decisions of the scheduler. *)
Definition withChoice (env : callEnv) (choice : list nat) : callEnv :=
  {| MGet := MGet env; gateStart := gateStart env; completed := completed env;
     choice := choice |}.

(** A backend that holds a fixed content: it answers every key with what
    [store] has for it, and never fails. *)
Definition storeEnv (store : string -> reply) (gateStart : nat -> option error)
    (completed : nat -> bool) (choice : list nat) : callEnv :=
  {| MGet := fun _ ks => (store <$> ks, None);
     gateStart := gateStart; completed := completed; choice := choice |}.

(** A backend that is down: every [MGet] fails. *)
Definition downEnv (choice : list nat) : callEnv :=
  {| MGet := fun _ _ => ([], Some (BackendError 1));
     gateStart := fun _ => None; completed := fun _ => true; choice := choice |}.

(** A backend whose replies for the key ["a"] depend on the batch. *)
Definition driftEnv (choice : list nat) : callEnv :=
  {| MGet := fun start ks =>
       ((fun _ => RString (if decide (start = O) then "old" else "new")) <$> ks, None);
     gateStart := fun _ => None; completed := fun _ => true; choice := choice |}.




(* ===================================================================== *)
(** * Properties *)
(* ===================================================================== *)

(** ** Configuration and construction *)

Lemma Validate_spec (c : RedisClientConfig) :
  Validate c =
    if decide (Endpoint c = "") then Some errRedisConfigNoEndpoint
    else if decide (MaxAsyncConcurrency c <= 0)
         then Some errRedisMaxAsyncConcurrencyNotPositive else None.
Proof. reflexivity. Qed.

Lemma NewRedisClient_exampleConfig (m k b : Z) :
  NewRedisClient (exampleConfig m k b) = (Some (exampleClient m k b), None).
Proof. unfold NewRedisClient, exampleClient; simpl. by case_decide. Qed.




(** ** The write path *)

Lemma withBase_base (c : redisClient) : withBase c (base c) = c.
Proof. by destruct c. Qed.


Lemma permits_false (maxSize : Z) (value : list byte) :
  0 < maxSize < Z.of_nat (length value) -> permits maxSize value = false.
Proof.
  intros [H1 H2]. unfold permits.
  rewrite decide_False by lia. apply bool_decide_eq_false. lia.
Qed.

Lemma permits_true_iff (maxSize : Z) (value : list byte) :
  permits maxSize value = true <->
  maxSize = 0 \/ Z.of_nat (length value) <= maxSize.
Proof.
  unfold permits. case_decide.
  - split; [by left | done].
  - rewrite bool_decide_eq_true. split; [by right | intros [?|?]; done].
Qed.


Lemma enqueue_accepts (q : AsyncWriteQueue) (task : backendOp) :
  stopped q = false -> Z.of_nat (length (queue q)) < bufferSize q ->
  enqueue q task =
    ({| queue := queue q ++ [task]; bufferSize := bufferSize q;
        concurrency := concurrency q; stopped := stopped q |}, true).
Proof.
  intros H1 H2. unfold enqueue. rewrite H1.
  by rewrite decide_False by lia.
Qed.

Lemma uint64_small (x : Z) : 0 <= x < 2 ^ 64 -> uint64 x = x.
Proof. intros H. unfold uint64. by apply Z.mod_small. Qed.

(** C6.  An item longer than a positive ceiling is refused by [SetAsync]
    with the size-exceeded error, and the call changes nothing: the client,
    its queue and the record of backend calls are as before.  With a
    ceiling of 0 an item of any size passes the guard, and is enqueued
    whenever the queue is running and not full.  The ceiling of a
    constructed client is the configured [MaxItemSize]. *)
Theorem SetAsync_size_guard (s : system) (key : string) (value : list byte) (ttl : Z) :
  (0 < maxItemSize (base (client s)) < Z.of_nat (length value) ->
     SetAsync (client s) key value ttl = (client s, Some SizeExceededError) /\
     step s (ESetAsync key value ttl) = (s, RError (Some SizeExceededError))) /\
  (maxItemSize (base (client s)) = 0 ->
     permits (maxItemSize (base (client s))) value = true /\
     (SetAsync (client s) key value ttl).2 <> Some SizeExceededError /\
     (stopped (asyncQueue (base (client s))) = false ->
      Z.of_nat (length (queue (asyncQueue (base (client s)))))
        < bufferSize (asyncQueue (base (client s))) ->
      (SetAsync (client s) key value ttl).2 = None /\
      queue (asyncQueue (base (SetAsync (client s) key value ttl).1)) =
        queue (asyncQueue (base (client s))) ++ [OpSet key value ttl])) /\
  (forall cfg c, 0 <= MaxItemSize cfg < 2 ^ 63 ->
     NewRedisClient cfg = (Some c, None) ->
     maxItemSize (base c) = MaxItemSize cfg).
Proof.
  split; [ | split ].
  - intros H. assert (E : SetAsync (client s) key value ttl
                          = (client s, Some SizeExceededError)).
    { unfold SetAsync, setAsync. rewrite permits_false by done.
      by rewrite withBase_base. }
    split; [done | ]. unfold step. rewrite E. by destruct s.
  - intros H. assert (P : permits (maxItemSize (base (client s))) value = true).
    { apply permits_true_iff. by left. }
    split; [done | ]. unfold SetAsync, setAsync. rewrite P.
    split.
    + destruct (enqueue _ _) as [q [|]]; simpl; done.
    + intros H1 H2. by rewrite enqueue_accepts.
  - intros cfg c Hm. unfold NewRedisClient.
    destruct (if TLSEnabled cfg then _ else _); [done | ].
    intros [= <-]. case_decide; simpl; apply uint64_small; lia.
Qed.

(** The witness of C6: a 3-byte value against a ceiling of 2 bytes, the
    same value against no ceiling, and the default ceiling of a constructed
    client. *)
Lemma SetAsync_size_guard_witness :
  let s := {| client := exampleClient 2 100 100; backendCalls := [] |} in
  let u := {| client := exampleClient 0 100 100; backendCalls := [] |} in
  step s (ESetAsync "k" [x61; x62; x63]%byte 0)
    = (s, RError (Some SizeExceededError)) /\
  ((SetAsync (client u) "k" [x61; x62; x63]%byte 0).2 = None /\
   queue (asyncQueue (base (SetAsync (client u) "k" [x61; x62; x63]%byte 0).1))
     = [OpSet "k" [x61; x62; x63]%byte 0]) /\
  maxItemSize (base (exampleClient (16 * 1024 * 1024) 100 100)) = 16 * 1024 * 1024.
Proof.
  intros s u.
  destruct (SetAsync_size_guard s "k" [x61; x62; x63]%byte 0) as [H1 [_ H3]].
  destruct (SetAsync_size_guard u "k" [x61; x62; x63]%byte 0) as [_ [H2 _]].
  split; [ | split ].
  - apply H1. vm_compute. split; reflexivity.
  - apply H2; [reflexivity | reflexivity | vm_compute; reflexivity].
  - apply (H3 (exampleConfig (16 * 1024 * 1024) 100 100)).
    + vm_compute. split; [discriminate | reflexivity].
    + apply NewRedisClient_exampleConfig.
Defined.

Lemma Stop_idempotent (c : redisClient) : Stop (Stop c) = Stop c.
Proof. reflexivity. Qed.

Lemma Stop_stopped (c : redisClient) : stopped (asyncQueue (base (Stop c))) = true.
Proof. reflexivity. Qed.









(** ** The unsafe conversion *)

Lemma length_bytesOfString (s : string) :
  length (bytesOfString s) = String.length s.
Proof.
  unfold bytesOfString, String.list_byte_of_string.
  rewrite length_map. induction s as [|a s IH]; simpl; [done | by rewrite IH].
Qed.

(** Writing below an address does not change what is read from it on. *)
Lemma readBytes_insert_below (n : nat) (mem : Unsafe.memory) (p q : Z) (b : byte) :
  p < q -> Unsafe.readBytes (<[p := b]> mem) q n = Unsafe.readBytes mem q n.
Proof.
  revert q. induction n as [|n IH]; intros q H; simpl; [done | ].
  rewrite lookup_insert_ne by lia. by rewrite IH by lia.
Qed.

Lemma readBytes_writeBytes (bs : list byte) (mem : Unsafe.memory) (p : Z) :
  Unsafe.readBytes (Unsafe.writeBytes mem p bs) p (length bs) = Some bs.
Proof.
  revert p. induction bs as [|b bs IH]; intros p; simpl; [done | ].
  rewrite lookup_insert_eq.
  rewrite readBytes_insert_below by lia. by rewrite IH.
Qed.

(** The slice header shares the data pointer and the length of the
    string, and its capacity is the length. *)
Lemma stringToBytes_header (s : Unsafe.stringHeader) :
  Unsafe.stringToBytes s =
    {| Unsafe.Data := Unsafe.strData s; Unsafe.Len := Unsafe.strLen s;
       Unsafe.Cap := Unsafe.strLen s |}.
Proof. reflexivity. Qed.

Lemma stringToBytes_eq (val : string) : stringToBytes val = bytesOfString val.
Proof.
  unfold stringToBytes, Unsafe.allocString, Unsafe.sliceContents. simpl.
  rewrite Nat2Z.id, <- length_bytesOfString.
  by rewrite readBytes_writeBytes.
Qed.

(** ** The merge loop *)

Lemma mergeLoop_spec (n : nat) :
  forall (i : nat) (ks : list string) (resp : list reply)
         (m : gmap string (list byte)),
  (i + n <= length ks)%nat ->
  exists m', mergeLoop n i ks resp m = Returns m' /\
    (forall key v, m' !! key = Some v ->
       m !! key = Some v \/
       exists j val, (i <= j < i + n)%nat /\ ks !! j = Some key /\
                     resp !! j = Some (RString val) /\ v = stringToBytes val) /\
    (forall key, is_Some (m !! key) -> is_Some (m' !! key)) /\
    (forall j key val, (i <= j < i + n)%nat -> ks !! j = Some key ->
       resp !! j = Some (RString val) -> is_Some (m' !! key)).
Proof.
  induction n as [|n IH]; intros i ks resp m Hlen.
  - exists m. simpl. split; [done | ]. split; [by left | ]. split; [done | ].
    intros; lia.
  - simpl. destruct (lookup_lt_is_Some_2 ks i) as [key Hkey]; [lia | ].
    rewrite Hkey.
    set (m1 := match resp !! i with
               | Some (RString val) => <[key := stringToBytes val]> m
               | _ => m
               end).
    destruct (IH (S i) ks resp m1) as (m' & E & H1 & H2 & H3); [lia | ].
    exists m'. split; [exact E | ].
    assert (Hm1 : forall k v, m1 !! k = Some v ->
              m !! k = Some v \/
              exists val, k = key /\ resp !! i = Some (RString val) /\
                          v = stringToBytes val).
    { intros k v. unfold m1.
      destruct (resp !! i) as [[val| |z]|]; try (by left).
      destruct (decide (key = k)) as [->|Hne].
      - rewrite lookup_insert_eq. intros [= <-]. right. by exists val.
      - rewrite lookup_insert_ne by done. by left. }
    assert (Hmono : forall k, is_Some (m !! k) -> is_Some (m1 !! k)).
    { intros k Hk. unfold m1.
      destruct (resp !! i) as [[val| |z]|]; try done.
      destruct (decide (key = k)) as [->|Hne].
      - rewrite lookup_insert_eq. by eexists.
      - by rewrite lookup_insert_ne. }
    split; [ | split ].
    + intros k v Hv. destruct (H1 k v Hv) as [Hm | (j & val & Hj & Hk & Hr & ->)].
      * destruct (Hm1 k v Hm) as [? | (val & -> & Hr & ->)]; [by left | ].
        right. exists i, val. repeat split; try done; lia.
      * right. exists j, val. repeat split; try done; lia.
    + intros k Hk. by apply H2, Hmono.
    + intros j k val Hj Hk Hr.
      destruct (decide (j = i)) as [->|Hne].
      * apply H2. unfold m1. rewrite Hr.
        assert (k = key) as -> by congruence.
        rewrite lookup_insert_eq. by eexists.
      * apply (H3 j k val); [lia | done | done].
Qed.

(** A response longer than the batch makes the loop index past the keys. *)
Lemma mergeLoop_panics (n : nat) :
  forall (i : nat) (ks : list string) (resp : list reply)
         (m : gmap string (list byte)),
  (length ks < i + n)%nat -> (i <= length ks)%nat ->
  mergeLoop n i ks resp m = Panics.
Proof.
  induction n as [|n IH]; intros i ks resp m H1 H2; [lia | ].
  simpl. destruct (ks !! i) as [key|] eqn:E; [ | done].
  apply IH; [lia | ]. apply lookup_lt_Some in E. lia.
Qed.

(** ** One batch *)

Lemma sliceOf_lookup (keys : list string) (a b j : nat) :
  (j < b - a)%nat -> sliceOf keys a b !! j = keys !! (a + j)%nat.
Proof.
  intros H. unfold sliceOf. rewrite lookup_take_lt by done. apply lookup_drop.
Qed.

Lemma length_sliceOf (keys : list string) (a b : nat) :
  (b <= length keys)%nat -> length (sliceOf keys a b) = (b - a)%nat.
Proof. intros H. unfold sliceOf. rewrite length_take, length_drop. lia. Qed.

Lemma holds_spec (i : nat) (r : nat * nat) :
  holds i r = true <-> (r.1 <= i < r.2)%nat.
Proof. unfold holds. apply bool_decide_eq_true. Qed.

Lemma hitIn_mono (env : callEnv) (keys : list string) (rs rs' : list (nat * nat))
    (key : string) (v : list byte) :
  (forall r, r ∈ rs -> r ∈ rs') -> hitIn env keys rs key v -> hitIn env keys rs' key v.
Proof.
  intros Hsub (r & i & val & Hr & H). exists r, i, val. split; [by apply Hsub | done].
Qed.

Lemma hitIn_app (env : callEnv) (keys : list string) (rs rs' : list (nat * nat))
    (key : string) (v : list byte) :
  hitIn env keys (rs ++ rs') key v <->
  hitIn env keys rs key v \/ hitIn env keys rs' key v.
Proof.
  split.
  - intros (r & i & val & Hr & H). apply elem_of_app in Hr as [Hr | Hr];
      [left | right]; by exists r, i, val.
  - intros [H | H]; eapply hitIn_mono; try exact H; intros r Hr;
      apply elem_of_app; [by left | by right].
Qed.

(** The function literal on one range: it returns, reports no error,
    records one backend invocation on the keys of the range, keeps the
    entries already present and adds exactly the hits of the range. *)
Lemma getMultiBatch_spec (env : callEnv) (keys : list string) (a b : nat)
    (st : callState) :
  respFits env -> (a <= b <= length keys)%nat ->
  exists st', getMultiBatch env keys a b st = Returns (st', None) /\
    mgetCalls st' = mgetCalls st ++ [sliceOf keys a b] /\
    (forall key v, results st' !! key = Some v ->
       results st !! key = Some v \/ hitIn env keys [(a, b)] key v) /\
    (forall key, is_Some (results st !! key) -> is_Some (results st' !! key)) /\
    (forall key v, hitIn env keys [(a, b)] key v -> is_Some (results st' !! key)).
Proof.
  intros Hfit Hab. unfold getMultiBatch, sliceKeys.
  rewrite decide_True by done.
  pose proof (Hfit a (sliceOf keys a b)) as Hlen.
  destruct (MGet env a (sliceOf keys a b)) as [resp [e|]] eqn:E; simpl in Hlen.
  - eexists. split; [reflexivity | ]. simpl. split; [done | ].
    split; [by left | ]. split; [done | ].
    intros key v (r & i & val & Hr & _ & _ & Hrep & _).
    apply list_elem_of_singleton in Hr as ->.
    unfold replyIn in Hrep. simpl in Hrep. by rewrite E in Hrep.
  - specialize (Hlen eq_refl). rewrite length_sliceOf in Hlen by lia.
    destruct (mergeLoop_spec (length resp) 0 (sliceOf keys a b) resp (results st))
      as (m' & Em & H1 & H2 & H3).
    { rewrite length_sliceOf by lia. lia. }
    rewrite Em. eexists. split; [reflexivity | ]. simpl. split; [done | ].
    split; [ | split ].
    + intros key v Hv. destruct (H1 key v Hv) as [? | (j & val & Hj & Hk & Hr & ->)];
        [by left | right].
      rewrite sliceOf_lookup in Hk by lia.
      exists (a, b), (a + j)%nat, val. repeat split; try done.
      * apply list_elem_of_singleton. done.
      * apply holds_spec. simpl. lia.
      * unfold replyIn. simpl. rewrite E. by replace (a + j - a)%nat with j by lia.
    + done.
    + intros key v (r & i & val & Hr & Hh & Hk & Hrep & _).
      apply list_elem_of_singleton in Hr as ->.
      apply holds_spec in Hh. simpl in Hh.
      unfold replyIn in Hrep. simpl in Hrep. rewrite E in Hrep.
      apply (H3 (i - a)%nat key val).
      * apply lookup_lt_Some in Hrep. lia.
      * rewrite sliceOf_lookup by lia. by replace (a + (i - a))%nat with i by lia.
      * done.
Qed.

(** ** A sequence of batches *)

Lemma runBatches_spec (env : callEnv) (keys : list string) (rs : list (nat * nat)) :
  respFits env -> inBounds (length keys) rs ->
  forall st,
  exists st', runBatches (getMultiBatch env keys) rs st = Returns (st', None) /\
    mgetCalls st' = mgetCalls st ++ ((fun r => sliceOf keys r.1 r.2) <$> rs) /\
    (forall key v, results st' !! key = Some v ->
       results st !! key = Some v \/ hitIn env keys rs key v) /\
    (forall key, is_Some (results st !! key) -> is_Some (results st' !! key)) /\
    (forall key v, hitIn env keys rs key v -> is_Some (results st' !! key)).
Proof.
  intros Hfit. induction rs as [|[a b] rs IH]; intros Hin st.
  - exists st. simpl. split; [done | ]. split; [by rewrite app_nil_r | ].
    split; [by left | ]. split; [done | ].
    intros key v (r & i & val & Hr & _). by apply elem_of_nil in Hr.
  - simpl.
    destruct (getMultiBatch_spec env keys a b st Hfit) as (st1 & E1 & C1 & A1 & M1 & B1).
    { apply (Hin (a, b)). apply elem_of_cons. by left. }
    rewrite E1.
    destruct (IH (fun r Hr => Hin r (proj2 (elem_of_cons _ _ _) (or_intror Hr))) st1)
      as (st2 & E2 & C2 & A2 & M2 & B2).
    rewrite E2. exists st2. split; [done | ].
    split; [by rewrite C2, C1, <- app_assoc | ].
    split; [ | split ].
    + intros key v Hv. destruct (A2 key v Hv) as [Hv1 | Hh].
      * destruct (A1 key v Hv1) as [? | Hh]; [by left | right].
        apply (hitIn_app env keys [(a, b)] rs). by left.
      * right. apply (hitIn_app env keys [(a, b)] rs). by right.
    + intros key Hk. by apply M2, M1.
    + intros key v Hh. apply (hitIn_app env keys [(a, b)] rs) in Hh as [Hh | Hh].
      * apply M2. by eapply B1.
      * by eapply B2.
Qed.

(** ** Scheduling *)

Lemma schedule_Permutation {A : Type} (l : list A) :
  forall choice, schedule choice l ≡ₚ l.
Proof.
  induction l as [|x l IH]; intros choice; simpl; [done | ].
  rewrite <- Permutation_middle, take_drop. by rewrite IH.
Qed.

Lemma elem_of_schedule {A : Type} (choice : list nat) (l : list A) (x : A) :
  x ∈ schedule choice l <-> x ∈ l.
Proof. by rewrite schedule_Permutation. Qed.

Lemma schedule_singleton {A : Type} (choice : list nat) (x : A) :
  schedule choice [x] = [x].
Proof. simpl. by rewrite take_nil, drop_nil. Qed.

(** Every order of the goroutines is the schedule of some decisions. *)
Lemma schedule_complete {A : Type} (l : list A) :
  forall l', l ≡ₚ l' -> exists choice, schedule choice l = l'.
Proof.
  induction l as [|x l IH]; intros l' Hp.
  - apply Permutation_nil_l in Hp as <-. by exists [].
  - assert (x ∈ l') as Hx by (rewrite <- Hp; apply list_elem_of_here).
    apply list_elem_of_split in Hx as (l1 & l2 & ->).
    apply Permutation_cons_app_inv in Hp.
    destruct (IH _ Hp) as (choice & E).
    exists (length l1 :: choice). simpl. rewrite E.
    by rewrite take_app_length, drop_app_length.
Qed.

(** ** The partition into batches *)

Lemma div_mod_bounds (a b : nat) :
  (0 < b)%nat -> (b * (a / b) <= a < b * (a / b) + b)%nat.
Proof.
  intros H. pose proof (Nat.div_mod_eq a b) as E.
  pose proof (Nat.mod_upper_bound a b ltac:(lia)) as U. lia.
Qed.

Lemma numBatches_le (N B n : nat) :
  (0 < B)%nat -> (numBatches N B <= n)%nat <-> (N <= n * B)%nat.
Proof.
  intros H. unfold numBatches.
  pose proof (div_mod_bounds (N + B - 1) B H) as [L U].
  set (q := ((N + B - 1) / B)%nat) in *. split; intros Hq; nia.
Qed.

Lemma numBatches_pos (N B : nat) :
  (0 < B)%nat -> (0 < N)%nat -> (0 < numBatches N B)%nat.
Proof.
  intros HB HN. destruct (decide (numBatches N B <= 0)%nat) as [H|H]; [ | lia].
  apply numBatches_le in H; [lia | done].
Qed.

(** The dispatch loop, in closed form: started at the [n]-th batch with
    enough fuel, it dispatches the ranges of the batches from [n] on, as
    many as the gate grants, and it is cut short when these are not all. *)
Lemma dispatchLoop_closed (N B : nat) (ga : option Gate) (start : nat -> option error) :
  (0 < B)%nat ->
  forall fuel n,
  (N <= n * B + fuel)%nat ->
  dispatchLoop fuel n (n * B) N B ga start =
    let g := match ga with
             | None => (numBatches N B - n)%nat
             | Some _ => grantedFrom start n (numBatches N B - n)
             end in
    (batchRange N B <$> seq n g, bool_decide (g < numBatches N B - n)%nat).
Proof.
  intros HB. induction fuel as [|fuel IH]; intros n Hf.
  - assert (numBatches N B <= n)%nat as Hn by (apply numBatches_le; [done | lia]).
    replace (numBatches N B - n)%nat with O by lia. simpl. by destruct ga.
  - cbn [dispatchLoop]. case_decide as Hle.
    + assert (numBatches N B <= n)%nat as Hn by (by apply numBatches_le).
      replace (numBatches N B - n)%nat with O by lia. simpl. by destruct ga.
    + assert (~ (numBatches N B <= n)%nat) as Hn
        by (intros Hc; apply numBatches_le in Hc; [lia | done]).
      replace (numBatches N B - n)%nat with (S (numBatches N B - S n)) by lia.
      replace (dispatchLoop fuel (S n) (n * B + B) N B ga start)
        with (dispatchLoop fuel (S n) (S n * B) N B ga start) by (f_equal; lia).
      rewrite (IH (S n)) by lia.
      destruct ga as [g|]; cbn [grantedFrom].
      * destruct (start n); [done | ]. cbn zeta. cbn [seq]. rewrite fmap_cons.
        f_equal. apply bool_decide_ext. lia.
      * cbn zeta. cbn [seq]. rewrite fmap_cons.
        f_equal. apply bool_decide_ext. lia.
Qed.

Lemma dispatched_closed (env : callEnv) (N : nat) (B : Z) (ga : option Gate) :
  0 < B ->
  dispatched env N B ga =
    let g := granted ga (gateStart env) (numBatches N (Z.to_nat B)) in
    (batchRange N (Z.to_nat B) <$> seq 0 g,
     bool_decide (g < numBatches N (Z.to_nat B))%nat).
Proof.
  intros HB. unfold dispatched.
  pose proof (dispatchLoop_closed N (Z.to_nat B) ga (gateStart env)
                ltac:(lia) N 0%nat ltac:(lia)) as E.
  change (0 * Z.to_nat B)%nat with 0%nat in E. rewrite E.
  rewrite Nat.sub_0_r. by destruct ga.
Qed.

Lemma grantedFrom_le (start : nat -> option error) (limit : nat) :
  forall n, (grantedFrom start n limit <= limit)%nat.
Proof.
  induction limit as [|l IH]; intros n; simpl; [lia | ].
  destruct (start n); [lia | ]. specialize (IH (S n)). lia.
Qed.

Lemma granted_le (ga : option Gate) (start : nat -> option error) (limit : nat) :
  (granted ga start limit <= limit)%nat.
Proof. destruct ga; simpl; [apply grantedFrom_le | lia]. Qed.

(** While the acquisitions succeed, all due batches are dispatched. *)
Lemma grantedFrom_all (start : nat -> option error) (limit : nat) :
  forall n, (forall k, (n <= k < n + limit)%nat -> start k = None) ->
  grantedFrom start n limit = limit.
Proof.
  induction limit as [|l IH]; intros n H; simpl; [done | ].
  rewrite (H n) by lia. rewrite IH; [done | ]. intros k Hk. apply H. lia.
Qed.

(** The first failing acquisition ends the dispatch. *)
Lemma grantedFrom_first_failure (start : nat -> option error) (limit : nat) :
  forall n k, (k < limit)%nat ->
  (forall j, (n <= j < n + k)%nat -> start j = None) ->
  is_Some (start (n + k)%nat) ->
  grantedFrom start n limit = k.
Proof.
  induction limit as [|l IH]; intros n k Hk Hok Hfail; [lia | ].
  simpl. destruct k as [|k].
  - rewrite Nat.add_0_r in Hfail. by destruct Hfail as [e ->].
  - rewrite (Hok n) by lia. f_equal. apply IH; [lia | | ].
    + intros j Hj. apply Hok. lia.
    + by replace (S n + k)%nat with (n + S k)%nat by lia.
Qed.

Lemma batchRange_holds (N B n i : nat) :
  (0 < B)%nat ->
  holds i (batchRange N B n) = true <-> (n = i / B /\ i < N)%nat.
Proof.
  intros HB. rewrite holds_spec. unfold batchRange. simpl.
  pose proof (div_mod_bounds i B HB) as [L U].
  set (q := (i / B)%nat) in *. split.
  - intros [H1 H2]. split; [nia | lia].
  - intros [-> H]. split; nia.
Qed.

Lemma batchRange_inBounds (N B g : nat) :
  (0 < B)%nat -> (g <= numBatches N B)%nat ->
  inBounds N (batchRange N B <$> seq 0 g).
Proof.
  intros HB Hg r Hr. apply list_elem_of_fmap in Hr as (n & -> & Hn).
  apply elem_of_seq in Hn. unfold batchRange. simpl.
  assert (~ (N <= n * B)%nat) by (rewrite <- numBatches_le by done; lia). lia.
Qed.

(** ** The batches of a call and the reply for a position *)

Lemma completedBatches_all (env : callEnv) (N : nat) (B : Z) (ga : option Gate) :
  0 < B ->
  granted ga (gateStart env) (numBatches N (Z.to_nat B)) = numBatches N (Z.to_nat B) ->
  completedBatches env N B ga =
    batchRange N (Z.to_nat B) <$> seq 0 (numBatches N (Z.to_nat B)).
Proof.
  intros HB Hg. unfold completedBatches. rewrite dispatched_closed by done.
  cbn zeta. rewrite Hg. by rewrite bool_decide_eq_false_2 by lia.
Qed.

Lemma completedBatches_cancelled (env : callEnv) (N : nat) (B : Z) (ga : option Gate) :
  0 < B ->
  (granted ga (gateStart env) (numBatches N (Z.to_nat B))
   < numBatches N (Z.to_nat B))%nat ->
  completedBatches env N B ga =
    filter (fun r => completed env r.1 = true)
      (batchRange N (Z.to_nat B) <$>
         seq 0 (granted ga (gateStart env) (numBatches N (Z.to_nat B)))).
Proof.
  intros HB Hg. unfold completedBatches. rewrite dispatched_closed by done.
  cbn zeta. by rewrite bool_decide_eq_true_2 by done.
Qed.

(** Every batch that has run is one of the batches of the partition. *)
Lemma completedBatches_elem (env : callEnv) (N : nat) (B : Z) (ga : option Gate)
    (r : nat * nat) :
  0 < B -> r ∈ completedBatches env N B ga ->
  exists n, r = batchRange N (Z.to_nat B) n /\ (n < numBatches N (Z.to_nat B))%nat.
Proof.
  intros HB. unfold completedBatches. rewrite dispatched_closed by done. cbn zeta.
  pose proof (granted_le ga (gateStart env) (numBatches N (Z.to_nat B))) as Hle.
  intros Hr.
  assert (r ∈ batchRange N (Z.to_nat B) <$>
                seq 0 (granted ga (gateStart env) (numBatches N (Z.to_nat B)))) as Hr'.
  { destruct (bool_decide _); [ | done]. by apply list_elem_of_filter in Hr as [_ ?]. }
  apply list_elem_of_fmap in Hr' as (n & -> & Hn). apply elem_of_seq in Hn.
  exists n. split; [done | lia].
Qed.

Lemma batches_elem (c : redisClient) (env : callEnv) (keys : list string)
    (r : nat * nat) :
  0 < GetMultiBatchSize (config c) -> r ∈ batches c env keys ->
  exists n,
    r = batchRange (length keys) (Z.to_nat (GetMultiBatchSize (config c))) n /\
    (n < numBatches (length keys) (Z.to_nat (GetMultiBatchSize (config c))))%nat.
Proof.
  intros HB. unfold batches. rewrite decide_False by lia.
  by apply completedBatches_elem.
Qed.

Lemma batches_inBounds (c : redisClient) (env : callEnv) (keys : list string) :
  inBounds (length keys) (batches c env keys).
Proof.
  destruct (decide (GetMultiBatchSize (config c) <= 0)) as [HB|HB].
  - unfold batches. rewrite decide_True by done.
    intros r Hr. apply list_elem_of_singleton in Hr as ->. simpl. lia.
  - intros r Hr. apply batches_elem in Hr as (n & -> & Hn); [ | lia].
    apply (batchRange_inBounds (length keys)
             (Z.to_nat (GetMultiBatchSize (config c)))
             (numBatches (length keys) (Z.to_nat (GetMultiBatchSize (config c)))));
      [lia | done | ].
    apply list_elem_of_fmap. exists n. split; [done | ]. apply elem_of_seq. lia.
Qed.

(** The batches are disjoint: a position lies in at most one of them. *)
Lemma batches_disjoint (c : redisClient) (env : callEnv) (keys : list string)
    (i : nat) (r r' : nat * nat) :
  r ∈ batches c env keys -> r' ∈ batches c env keys ->
  holds i r = true -> holds i r' = true -> r = r'.
Proof.
  destruct (decide (GetMultiBatchSize (config c) <= 0)) as [HB|HB].
  - unfold batches. rewrite decide_True by done.
    intros Hr Hr' _ _.
    apply list_elem_of_singleton in Hr as ->.
    by apply list_elem_of_singleton in Hr' as ->.
  - intros Hr Hr' Hh Hh'.
    apply batches_elem in Hr as (n & -> & _); [ | lia].
    apply batches_elem in Hr' as (n' & -> & _); [ | lia].
    apply batchRange_holds in Hh as [-> _]; [ | lia].
    apply batchRange_holds in Hh' as [-> _]; [ | lia]. done.
Qed.

Lemma find_holds_Some (i : nat) (rs : list (nat * nat)) (r : nat * nat) :
  find (holds i) rs = Some r -> r ∈ rs /\ holds i r = true.
Proof.
  induction rs as [|r' rs IH]; simpl; [done | ].
  destruct (holds i r') eqn:E.
  - intros [= <-]. split; [apply elem_of_cons; by left | done].
  - intros H. destruct (IH H) as [H1 H2]. split; [apply elem_of_cons; by right | done].
Qed.

Lemma find_holds_None (i : nat) (rs : list (nat * nat)) :
  find (holds i) rs = None -> forall r, r ∈ rs -> holds i r = false.
Proof.
  induction rs as [|r' rs IH]; simpl; intros H r Hr.
  - by apply elem_of_nil in Hr.
  - destruct (holds i r') eqn:E; [done | ].
    apply elem_of_cons in Hr as [-> | Hr]; [done | by apply IH].
Qed.

(** The batch that holds a position is found whichever it is. *)
Lemma find_holds_batches (c : redisClient) (env : callEnv) (keys : list string)
    (i : nat) (r : nat * nat) :
  r ∈ batches c env keys -> holds i r = true ->
  find (holds i) (batches c env keys) = Some r.
Proof.
  intros Hr Hh. destruct (find (holds i) (batches c env keys)) as [r'|] eqn:E.
  - apply find_holds_Some in E as [Hr' Hh']. f_equal.
    by apply (batches_disjoint c env keys i).
  - rewrite (find_holds_None i _ E r Hr) in Hh. done.
Qed.

Lemma hitIn_batches (c : redisClient) (env : callEnv) (keys : list string)
    (key : string) (v : list byte) :
  hitIn env keys (batches c env keys) key v <->
  exists i val, keys !! i = Some key /\
                replyOf c env keys i = Some (RString val) /\ v = stringToBytes val.
Proof.
  split.
  - intros (r & i & val & Hr & Hh & Hk & Hrep & Hv). exists i, val.
    split; [done | ]. split; [ | done].
    unfold replyOf. by rewrite (find_holds_batches c env keys i r).
  - intros (i & val & Hk & Hrep & Hv). unfold replyOf in Hrep.
    destruct (find (holds i) (batches c env keys)) as [r|] eqn:E; [ | done].
    apply find_holds_Some in E as [Hr Hh]. simpl in Hrep.
    by exists r, i, val.
Qed.

(** ** [GetMulti] as a whole *)

(** The function literal never returns an error, so [doWithBatch] has none
    to report: when [GetMulti] returns on a request with keys, it returns a
    map.  The branch [err != nil] of [GetMulti] is not taken. *)
Lemma getMultiBatch_no_error (env : callEnv) (keys : list string) (a b : nat)
    (st st' : callState) (err : option error) :
  getMultiBatch env keys a b st = Returns (st', err) -> err = None.
Proof.
  unfold getMultiBatch. destruct (sliceKeys keys a b) as [ks|]; [ | done].
  destruct (MGet env a ks) as [resp [e|]]; [congruence | ].
  destruct (mergeLoop _ _ _ _ _); congruence.
Qed.

Lemma runBatches_no_error (env : callEnv) (keys : list string) (rs : list (nat * nat)) :
  forall (st st' : callState) (err : option error),
  runBatches (getMultiBatch env keys) rs st = Returns (st', err) -> err = None.
Proof.
  induction rs as [|[a b] rs IH]; intros st st' err; simpl; [congruence | ].
  destruct (getMultiBatch env keys a b st) as [[st1 e1]|] eqn:E1; [ | done].
  apply getMultiBatch_no_error in E1 as ->.
  destruct (runBatches _ rs st1) as [[st2 e2]|] eqn:E2; [ | done].
  apply IH in E2 as ->. congruence.
Qed.

Lemma GetMulti_not_nil (c : redisClient) (env : callEnv) (keys : list string)
    (o : option (gmap string (list byte))) (calls : list (list string)) :
  keys <> [] -> GetMulti c env keys = Returns (o, calls) -> is_Some o.
Proof.
  intros Hne. unfold GetMulti. rewrite decide_False by (by destruct keys).
  unfold doWithBatch. case_decide.
  - destruct (getMultiBatch _ _ _ _ _) as [[st' err]|] eqn:E; [ | done].
    apply getMultiBatch_no_error in E as ->. intros [= <- _]. by eexists.
  - destruct (runBatches _ _ _) as [[st' err]|] eqn:E; [ | done].
    apply runBatches_no_error in E as ->.
    destruct (dispatched _ _ _ _).2; intros [= <- _]; by eexists.
Qed.

(** A response longer than its batch makes [GetMulti] panic: the contract
    of the backend is needed for the call to return. *)
Lemma GetMulti_panics_on_long_response :
  GetMulti (exampleClient 0 0 2) longReplyEnv ["a"; "b"; "c"] = Panics.
Proof. reflexivity. Qed.

(** For a non-empty key sequence and a backend that keeps its contract,
    [GetMulti] returns a map, never nil and never a panic.  The backend is
    invoked once per dispatched batch, on the keys of the batch.  The map
    has an entry for a key exactly when the reply for one of its positions
    is a string, and the value of an entry is the bytes of such a
    string. *)
Lemma GetMulti_spec (c : redisClient) (env : callEnv) (keys : list string) :
  keys <> [] -> respFits env ->
  exists m,
    GetMulti c env keys =
      Returns (Some m,
               (fun r => sliceOf keys r.1 r.2) <$>
                 schedule (choice env) (batches c env keys)) /\
    (forall key v, m !! key = Some v ->
       exists i val, keys !! i = Some key /\
                     replyOf c env keys i = Some (RString val) /\
                     v = stringToBytes val) /\
    (forall i key val, keys !! i = Some key ->
       replyOf c env keys i = Some (RString val) -> is_Some (m !! key)).
Proof.
  intros Hne Hfit. unfold GetMulti.
  rewrite decide_False by (by destruct keys).
  set (st0 := {| results := ∅; mgetCalls := [] |}).
  assert (exists st',
    doWithBatch env (length keys) (GetMultiBatchSize (config c)) (getMultiGate c)
      (getMultiBatch env keys) st0 = Returns (st', None) /\
    mgetCalls st' = (fun r => sliceOf keys r.1 r.2) <$>
                      schedule (choice env) (batches c env keys) /\
    (forall key v, results st' !! key = Some v ->
       hitIn env keys (batches c env keys) key v) /\
    (forall key v, hitIn env keys (batches c env keys) key v ->
       is_Some (results st' !! key))) as (st' & E & HC & HA & HB).
  { unfold doWithBatch, batches.
    destruct (decide (GetMultiBatchSize (config c) <= 0)) as [Hb|Hb].
    - destruct (getMultiBatch_spec env keys 0 (length keys) st0 Hfit)
        as (st' & E & HC & HA & _ & HB); [lia | ].
      exists st'. split; [done | ]. rewrite schedule_singleton.
      split; [done | ]. split; [ | done].
      intros key v Hv. destruct (HA key v Hv) as [Hv0 | ?]; [ | done].
      simpl in Hv0. by rewrite lookup_empty in Hv0.
    - pose proof (batches_inBounds c env keys) as Hin.
      unfold batches in Hin. rewrite decide_False in Hin by done.
      destruct (runBatches_spec env keys
                  (schedule (choice env)
                     (completedBatches env (length keys)
                        (GetMultiBatchSize (config c)) (getMultiGate c))) Hfit)
        with (st := st0) as (st' & E & HC & HA & _ & HB).
      { intros r Hr. apply Hin. by apply elem_of_schedule in Hr. }
      exists st'. rewrite E. split; [by destruct (dispatched _ _ _ _).2 | ].
      split; [done | ]. split.
      + intros key v Hv. destruct (HA key v Hv) as [Hv0 | Hh].
        * simpl in Hv0. by rewrite lookup_empty in Hv0.
        * eapply hitIn_mono; [ | exact Hh]. intros r. apply elem_of_schedule.
      + intros key v Hh. apply (HB key v).
        eapply hitIn_mono; [ | exact Hh]. intros r. apply elem_of_schedule. }
  rewrite E. exists (results st'). split; [by rewrite HC | ].
  split.
  - intros key v Hv. by apply hitIn_batches, HA.
  - intros i key val Hk Hrep. apply (HB key (stringToBytes val)).
    apply hitIn_batches. by exists i, val.
Qed.

Lemma echoEnv_respFits (granted : nat) (choice : list nat) :
  respFits (echoEnv granted choice).
Proof. intros start ks _. simpl. by rewrite length_fmap. Qed.

Lemma failFirstEnv_respFits : respFits failFirstEnv.
Proof.
  intros start ks. simpl. case_decide; [done | ].
  intros _. simpl. by rewrite length_fmap.
Qed.

(** [GetMulti] always returns when the backend keeps its contract; what
    it returns is read with [lookupResult], also for an empty request. *)
Lemma GetMulti_lookup (c : redisClient) (env : callEnv) (keys : list string) :
  respFits env ->
  exists o calls,
    GetMulti c env keys = Returns (o, calls) /\
    (keys <> [] -> is_Some o) /\
    (forall key v, lookupResult o key = Some v ->
       exists i val, keys !! i = Some key /\
                     replyOf c env keys i = Some (RString val) /\
                     v = stringToBytes val) /\
    (forall i key val, keys !! i = Some key ->
       replyOf c env keys i = Some (RString val) -> is_Some (lookupResult o key)).
Proof.
  intros Hfit. destruct keys as [|k0 keys].
  - exists None, []. repeat split; try done.
  - destruct (GetMulti_spec c env (k0 :: keys)) as (m & E & HA & HB); [done | done | ].
    exists (Some m). eexists. split; [exact E | ]. split; [by eexists | ].
    split; [exact HA | exact HB].
Qed.

(** A string reply for a position lies in a dispatched batch whose [MGet]
    succeeded. *)
Lemma replyOf_Some (c : redisClient) (env : callEnv) (keys : list string)
    (i : nat) (x : reply) :
  replyOf c env keys i = Some x ->
  exists r, r ∈ batches c env keys /\ holds i r = true /\
            replyIn env keys r i = Some x /\ ~ batchFails env keys r.
Proof.
  unfold replyOf. destruct (find _ _) as [r|] eqn:E; [ | done].
  apply find_holds_Some in E as [Hr Hh]. simpl. intros Hx.
  exists r. repeat split; try done.
  unfold batchFails, replyIn in *. intros Hf.
  destruct (MGet env r.1 (sliceOf keys r.1 r.2)) as [resp [e|]]; done.
Qed.

(** ** The claims on [GetMulti] *)

(** C8.  On an empty key sequence [GetMulti] returns the nil map at once:
    the record of backend invocations is empty. *)
Theorem GetMulti_empty (c : redisClient) (env : callEnv) :
  GetMulti c env [] = Returns (None, []).
Proof. reflexivity. Qed.

(** C4.  For every call on a backend that keeps its contract, [GetMulti]
    returns, and the returned map has an entry for a key exactly when the
    reply for a position of that key is a string; the value of the entry is
    then the bytes of such a reply (of the reply for the key's position,
    when the key occurs once).  A key whose replies are all nil, of another
    shape, or absent has no entry, and every key of the map is a key of the
    request. *)
Theorem GetMulti_entries_are_string_replies (c : redisClient) (env : callEnv)
    (keys : list string) :
  respFits env ->
  exists o calls,
    GetMulti c env keys = Returns (o, calls) /\
    (forall key, is_Some (lookupResult o key) <->
       exists i val, keys !! i = Some key /\
                     replyOf c env keys i = Some (RString val)) /\
    (forall key v, lookupResult o key = Some v ->
       exists i val, keys !! i = Some key /\
                     replyOf c env keys i = Some (RString val) /\
                     v = bytesOfString val) /\
    (forall key v i, lookupResult o key = Some v -> keys !! i = Some key ->
       (forall j, keys !! j = Some key -> j = i) ->
       exists val, replyOf c env keys i = Some (RString val) /\
                   v = bytesOfString val) /\
    (forall key,
       (forall i, keys !! i = Some key ->
          replyOf c env keys i = Some RNil \/
          (exists z, replyOf c env keys i = Some (ROther z)) \/
          replyOf c env keys i = None) ->
       lookupResult o key = None) /\
    (forall key, is_Some (lookupResult o key) -> key ∈ keys).
Proof.
  intros Hfit.
  destruct (GetMulti_lookup c env keys Hfit) as (o & calls & E & _ & HA & HB).
  exists o, calls. split; [exact E | ].
  assert (HA' : forall key v, lookupResult o key = Some v ->
            exists i val, keys !! i = Some key /\
                          replyOf c env keys i = Some (RString val) /\
                          v = bytesOfString val).
  { intros key v Hv. destruct (HA key v Hv) as (i & val & Hk & Hr & ->).
    exists i, val. by rewrite stringToBytes_eq. }
  split; [ | split; [exact HA' | split; [ | split ] ] ].
  - intros key. split.
    + intros [v Hv]. destruct (HA' key v Hv) as (i & val & Hk & Hr & _). eauto.
    + intros (i & val & Hk & Hr). by eapply HB.
  - intros key v i Hv Hk Huniq.
    destruct (HA' key v Hv) as (j & val & Hj & Hr & ->).
    rewrite (Huniq j Hj) in Hr. eauto.
  - intros key Hall. destruct (lookupResult o key) as [v|] eqn:Hv; [ | done].
    destruct (HA' key v Hv) as (i & val & Hk & Hr & _).
    destruct (Hall i Hk) as [H | [[z H] | H]]; congruence.
  - intros key [v Hv]. destruct (HA' key v Hv) as (i & val & Hk & _).
    apply list_elem_of_lookup. eauto.
Qed.

(** The witness of C4: five keys, one of them twice, in batches of two. *)
Lemma GetMulti_entries_are_string_replies_witness :
  let c := exampleClient 0 0 2 in
  let env := echoEnv 0 [1; 0]%nat in
  let keys := ["a"; "miss"; "b"; "odd"; "a"] in
  respFits env /\
  exists o calls,
    GetMulti c env keys = Returns (o, calls) /\
    (forall key, is_Some (lookupResult o key) <->
       exists i val, keys !! i = Some key /\
                     replyOf c env keys i = Some (RString val)).
Proof.
  intros c env keys. split; [apply echoEnv_respFits | ].
  destruct (GetMulti_entries_are_string_replies c env keys (echoEnv_respFits _ _))
    as (o & calls & E & H & _).
  by exists o, calls.
Defined.

Lemma failed_batch_no_reply (c : redisClient) (env : callEnv) (keys : list string)
    (r : nat * nat) (i : nat) :
  r ∈ batches c env keys -> batchFails env keys r -> holds i r = true ->
  replyOf c env keys i = None.
Proof.
  intros Hr Hf Hh. unfold replyOf.
  rewrite (find_holds_batches c env keys i r) by done. simpl.
  unfold batchFails in Hf. unfold replyIn.
  by destruct (MGet env r.1 (sliceOf keys r.1 r.2)) as [resp [e|]].
Qed.

Lemma replyIn_replyOf (c : redisClient) (env : callEnv) (keys : list string)
    (r : nat * nat) (i : nat) :
  r ∈ batches c env keys -> holds i r = true ->
  replyOf c env keys i = replyIn env keys r i.
Proof.
  intros Hr Hh. unfold replyOf.
  by rewrite (find_holds_batches c env keys i r) by done.
Qed.

(** C3, as stated, fails when a key of the failed batch also occurs in a
    batch that succeeds: with the keys ["a"; "a"] in batches of one, the
    first batch failing and the second answering, the key of the failed
    batch is in the returned map. *)
Lemma failed_batch_key_present :
  let c := exampleClient 0 0 1 in
  let keys := ["a"; "a"] in
  (0, 1)%nat ∈ batches c failFirstEnv keys /\
  batchFails failFirstEnv keys (0, 1)%nat /\
  sliceOf keys 0 1 = ["a"] /\
  GetMulti c failFirstEnv keys
    = Returns (Some {[ "a" := [x61]%byte ]}, [["a"]; ["a"]]).
Proof.
  repeat split.
  - vm_compute. apply list_elem_of_here.
  - vm_compute. discriminate.
Qed.

(** C3, amended.  For every call on a backend that keeps its contract,
    [GetMulti] returns (a non-nil map when there are keys) and does not
    panic.  A batch whose [MGet] fails adds no entry: none of its positions
    has a reply; a key of the failed batch has an entry only if the same
    key has a string reply in another batch, one whose [MGet] succeeded;
    and a key that occurs in the failed batch only has no entry.  The other
    batches are not aborted: every string reply of a batch gives its key
    an entry. *)
Theorem failed_batch_adds_no_entries (c : redisClient) (env : callEnv)
    (keys : list string) :
  respFits env ->
  exists o calls,
    GetMulti c env keys = Returns (o, calls) /\
    (keys <> [] -> is_Some o) /\
    (forall r, r ∈ batches c env keys -> batchFails env keys r ->
       (forall i, holds i r = true -> replyOf c env keys i = None) /\
       (forall i key, holds i r = true -> keys !! i = Some key ->
          is_Some (lookupResult o key) ->
          exists r' j val,
            r' ∈ batches c env keys /\ r' <> r /\ ~ batchFails env keys r' /\
            holds j r' = true /\ keys !! j = Some key /\
            replyIn env keys r' j = Some (RString val)) /\
       (forall i key, holds i r = true -> keys !! i = Some key ->
          (forall j, keys !! j = Some key -> holds j r = true) ->
          lookupResult o key = None)) /\
    (forall r i key val,
       r ∈ batches c env keys -> holds i r = true -> keys !! i = Some key ->
       replyIn env keys r i = Some (RString val) ->
       is_Some (lookupResult o key)).
Proof.
  intros Hfit.
  destruct (GetMulti_lookup c env keys Hfit) as (o & calls & E & Hnil & HA & HB).
  exists o, calls. split; [exact E | ]. split; [exact Hnil | ].
  assert (Hother : forall r key, r ∈ batches c env keys -> batchFails env keys r ->
            is_Some (lookupResult o key) ->
            exists r' j val,
              r' ∈ batches c env keys /\ r' <> r /\ ~ batchFails env keys r' /\
              holds j r' = true /\ keys !! j = Some key /\
              replyIn env keys r' j = Some (RString val)).
  { intros r key Hr Hf [v Hv].
    destruct (HA key v Hv) as (j & val & Hj & Hrep & _).
    destruct (replyOf_Some c env keys j _ Hrep) as (r' & Hr' & Hh' & Hin & Hok).
    exists r', j, val. repeat split; try done. by intros ->. }
  split.
  - intros r Hr Hf. split; [ | split ].
    + intros i Hh. by eapply failed_batch_no_reply.
    + intros i key _ _ Hs. by apply Hother.
    + intros i key Hh Hk Hall.
      destruct (lookupResult o key) as [v|] eqn:Hv; [ | done].
      destruct (Hother r key Hr Hf) as (r' & j & val & Hr' & Hne & _ & Hh' & Hj & _).
      { by rewrite Hv. }
      pose proof (find_holds_batches c env keys j r Hr (Hall j Hj)) as F1.
      pose proof (find_holds_batches c env keys j r' Hr' Hh') as F2.
      congruence.
  - intros r i key val Hr Hh Hk Hrep. apply (HB i key val Hk).
    by rewrite (replyIn_replyOf c env keys r i).
Qed.

(** The witness of C3: the first of three batches fails. *)
Lemma failed_batch_adds_no_entries_witness :
  let c := exampleClient 0 0 2 in
  let keys := ["a"; "miss"; "b"; "odd"; "c"] in
  respFits failFirstEnv /\
  (0, 2)%nat ∈ batches c failFirstEnv keys /\
  batchFails failFirstEnv keys (0, 2)%nat /\
  exists o calls,
    GetMulti c failFirstEnv keys = Returns (o, calls) /\
    lookupResult o "a" = None /\
    is_Some (lookupResult o "b").
Proof.
  intros c keys.
  assert (Hin : forall r, r ∈ [(0, 2); (2, 4); (4, 5)]%nat ->
                  r ∈ batches c failFirstEnv keys) by (intros r Hr; exact Hr).
  assert (Hf : batchFails failFirstEnv keys (0, 2)%nat) by (vm_compute; discriminate).
  split; [apply failFirstEnv_respFits | ].
  split; [apply Hin, list_elem_of_here | ].
  split; [exact Hf | ].
  destruct (failed_batch_adds_no_entries c failFirstEnv keys failFirstEnv_respFits)
    as (o & calls & E & _ & Hfail & Hsib).
  exists o, calls. split; [exact E | ]. split.
  - destruct (Hfail (0, 2)%nat) as (_ & _ & Habs);
      [apply Hin, list_elem_of_here | exact Hf | ].
    apply (Habs 0%nat "a"); [reflexivity | reflexivity | ].
    intros [|[|[|[|[|j]]]]] Hj; simpl in Hj; try discriminate; reflexivity.
  - apply (Hsib (2, 4)%nat 2%nat "b" "b"); try reflexivity.
    apply Hin. apply list_elem_of_further, list_elem_of_here.
Defined.

Lemma GetMulti_calls_Permutation (c : redisClient) (env : callEnv) (keys : list string) :
  (fun r : nat * nat => sliceOf keys r.1 r.2) <$>
    schedule (choice env) (batches c env keys)
  ≡ₚ (fun r : nat * nat => sliceOf keys r.1 r.2) <$> batches c env keys.
Proof. by rewrite schedule_Permutation. Qed.

(** C1.  A call with keys, on a backend that keeps its contract, returns a
    non-nil map whatever the gate and the backend do; no error reaches the
    caller, the result type having none.  The map holds the merged hits of
    the batches that have completed: every string reply of such a batch
    gives its key an entry, and every entry comes from such a reply.  The
    recorded backend invocations are those of exactly these batches.  When
    the acquisition for batch [k] is the first to fail with the
    cancellation error, these batches are those of the first [k] batches of
    the partition that have completed by then: their results are returned,
    not dropped. *)
Theorem cancelled_GetMulti_returns_completed_batches (c : redisClient)
    (env : callEnv) (keys : list string) (k : nat) :
  keys <> [] -> respFits env ->
  exists m calls,
    GetMulti c env keys = Returns (Some m, calls) /\
    (forall r i key val,
       r ∈ batches c env keys -> holds i r = true -> keys !! i = Some key ->
       replyIn env keys r i = Some (RString val) -> is_Some (m !! key)) /\
    (forall key v, m !! key = Some v ->
       exists r i val,
         r ∈ batches c env keys /\ holds i r = true /\ keys !! i = Some key /\
         replyIn env keys r i = Some (RString val) /\ v = bytesOfString val) /\
    calls ≡ₚ (fun r : nat * nat => sliceOf keys r.1 r.2) <$> batches c env keys /\
    (0 < GetMultiBatchSize (config c) -> is_Some (getMultiGate c) ->
     (forall j, (j < k)%nat -> gateStart env j = None) ->
     is_Some (gateStart env k) ->
     (k < numBatches (length keys) (Z.to_nat (GetMultiBatchSize (config c))))%nat ->
     batches c env keys =
       filter (fun r => completed env r.1 = true)
         (batchRange (length keys) (Z.to_nat (GetMultiBatchSize (config c)))
            <$> seq 0 k)).
Proof.
  intros Hne Hfit.
  destruct (GetMulti_spec c env keys Hne Hfit) as (m & E & HA & HB).
  exists m. eexists. split; [exact E | ].
  split; [ | split; [ | split ] ].
  - intros r i key val Hr Hh Hk Hrep. apply (HB i key val Hk).
    by rewrite (replyIn_replyOf c env keys r i).
  - intros key v Hv. destruct (HA key v Hv) as (i & val & Hk & Hrep & ->).
    destruct (replyOf_Some c env keys i _ Hrep) as (r & Hr & Hh & Hin & _).
    exists r, i, val. by rewrite stringToBytes_eq.
  - apply GetMulti_calls_Permutation.
  - intros HB0 [g Hg] Hok Hfail Hk.
    assert (granted (getMultiGate c) (gateStart env)
              (numBatches (length keys) (Z.to_nat (GetMultiBatchSize (config c))))
            = k) as Hgr.
    { rewrite Hg. simpl. apply grantedFrom_first_failure; [done | | done].
      intros j Hj. apply Hok. lia. }
    unfold batches. rewrite decide_False by lia.
    rewrite completedBatches_cancelled by (done || lia). by rewrite Hgr.
Qed.

(** The witness of C1: five keys in batches of two behind a gate; the
    third acquisition is cancelled while the second batch is in flight. *)
Lemma cancelled_GetMulti_returns_completed_batches_witness :
  let c := exampleClient 0 5 2 in
  let env := echoEnv 2 [1]%nat in
  let keys := ["a"; "miss"; "b"; "odd"; "c"] in
  keys <> [] /\ respFits env /\
  batches c env keys = [(0, 2)]%nat /\
  exists m calls,
    GetMulti c env keys = Returns (Some m, calls) /\
    is_Some (m !! "a").
Proof.
  intros c env keys.
  destruct (cancelled_GetMulti_returns_completed_batches c env keys 2)
    as (m & calls & E & Hhit & _ & _ & Hcancel);
    [done | apply echoEnv_respFits | ].
  assert (Hb : batches c env keys = [(0, 2)]%nat).
  { apply Hcancel.
    - reflexivity.
    - by eexists.
    - intros [|[|j]] Hj; try reflexivity; lia.
    - by eexists.
    - vm_compute. lia. }
  split; [done | ]. split; [apply echoEnv_respFits | ]. split; [exact Hb | ].
  exists m, calls. split; [exact E | ].
  apply (Hhit (0, 2)%nat 0%nat "a" "a"); try reflexivity.
  rewrite Hb. apply list_elem_of_here.
Defined.

(** ** The partition of the keys *)






(** ** The gate *)

Section Gate.
Import Concurrent.
















End Gate.




(** ** The conversion, as a refinement of the copy *)

(** C10.  For a string held in memory, the slice that [stringToBytes]
    yields shares its data pointer, has the string's length as length and
    as capacity, and reads as the bytes of the string: it is
    indistinguishable, to a reader, from the copy.  Hence the value that
    [GetMulti] stores for a string reply has the length of the string and
    is the sequence of its bytes, and every value in a result of [GetMulti]
    is the bytes of a string reply for its key. *)
Theorem stringToBytes_refines_copy (val : string) :
  (forall (mem : gmap Z byte) (s : Unsafe.stringHeader),
     Unsafe.strLen s = Z.of_nat (String.length val) ->
     Unsafe.stringContents mem s = Some (bytesOfString val) ->
     Unsafe.Data (Unsafe.stringToBytes s) = Unsafe.strData s /\
     Unsafe.Len (Unsafe.stringToBytes s) = Z.of_nat (String.length val) /\
     Unsafe.Cap (Unsafe.stringToBytes s) = Z.of_nat (String.length val) /\
     Unsafe.sliceContents mem (Unsafe.stringToBytes s) = Some (bytesOfString val)) /\
  stringToBytes val = bytesOfString val /\
  length (stringToBytes val) = String.length val /\
  (forall (key : string) (m : gmap string (list byte)),
     mergeLoop 1 0 [key] [RString val] m = Returns (<[key := bytesOfString val]> m)) /\
  (forall (c : redisClient) (env : callEnv) (keys : list string),
     respFits env ->
     exists o calls,
       GetMulti c env keys = Returns (o, calls) /\
       forall key v, lookupResult o key = Some v ->
         exists i val', keys !! i = Some key /\
                        replyOf c env keys i = Some (RString val') /\
                        v = bytesOfString val').
Proof.
  split; [ | split; [ | split; [ | split ] ] ].
  - intros mem s Hlen Hmem. rewrite stringToBytes_header. simpl.
    repeat split; done.
  - apply stringToBytes_eq.
  - by rewrite stringToBytes_eq, length_bytesOfString.
  - intros key m. simpl. by rewrite stringToBytes_eq.
  - intros c env keys Hfit.
    destruct (GetMulti_lookup c env keys Hfit) as (o & calls & E & _ & HA & _).
    exists o, calls. split; [exact E | ].
    intros key v Hv. destruct (HA key v Hv) as (i & val' & Hk & Hr & ->).
    exists i, val'. by rewrite stringToBytes_eq.
Qed.

(** The witness of C10: the string ["hit"] stored at address 4096. *)
Lemma stringToBytes_refines_copy_witness :
  let '(mem, s) := Unsafe.allocString ∅ 4096 "hit" in
  Unsafe.sliceContents mem (Unsafe.stringToBytes s) = Some [x68; x69; x74]%byte /\
  Unsafe.Cap (Unsafe.stringToBytes s) = 3.
Proof.
  destruct (stringToBytes_refines_copy "hit") as [H _].
  destruct (H (Unsafe.allocString ∅ 4096 "hit").1 (Unsafe.allocString ∅ 4096 "hit").2)
    as (_ & _ & Hc & Hs); [reflexivity | reflexivity | ].
  split; [exact Hs | exact Hc].
Defined.

(* ===================================================================== *)
(** * Further properties of the client *)
(* ===================================================================== *)

(** ** Flag defaults and construction *)

(** X1.  Whatever the configuration held before, after
    [RegisterFlagsWithPrefix] it passes [Validate] exactly when an endpoint
    is set, and [NewRedisClient] builds from it, without fail, a client
    with a ceiling of 16 MiB, a write queue of 25000 slots and 50 workers,
    and a gate of 100 permits. *)
Theorem flag_defaults_valid_iff_endpoint (registerTLS : ClientConfig -> ClientConfig)
    (c : RedisClientConfig) :
  let d := RegisterFlagsWithPrefix registerTLS c in
  (Validate d = None <-> Endpoint c <> "") /\
  (Endpoint c = "" -> Validate d = Some errRedisConfigNoEndpoint) /\
  exists cl,
    NewRedisClient d = (Some cl, None) /\ config cl = d /\
    maxItemSize (base cl) = 16777216 /\
    bufferSize (asyncQueue (base cl)) = 25000 /\
    concurrency (asyncQueue (base cl)) = 50 /\
    getMultiGate cl = Some (gate_New 100).
Proof.
  intros d. split; [ | split ].
  - unfold Validate, d. cbn [Endpoint MaxAsyncConcurrency RegisterFlagsWithPrefix].
    case_decide as He; [by split | ].
    rewrite decide_False by lia. by split.
  - intros He. unfold Validate, d.
    cbn [Endpoint MaxAsyncConcurrency RegisterFlagsWithPrefix].
    by rewrite decide_True.
  - eexists. split; [reflexivity | ]. repeat split.
Qed.

(** The witness of X1: the defaults over a configuration without
    endpoint. *)
Lemma flag_defaults_valid_iff_endpoint_witness :
  Validate (RegisterFlagsWithPrefix id invalidConfig)
    = Some errRedisConfigNoEndpoint.
Proof.
  destruct (flag_defaults_valid_iff_endpoint id invalidConfig) as (_ & H & _).
  by apply H.
Defined.

(** X2.  A negative [MaxItemSize] is not refused: [Validate] accepts it
    (given an endpoint and a positive async concurrency), and
    [NewRedisClient] converts it to an unsigned ceiling of [2^64] more, at
    least [2^63]. *)
Theorem negative_MaxItemSize_wraps (cfg : RedisClientConfig) (c : redisClient) :
  - 2 ^ 63 <= MaxItemSize cfg < 0 ->
  NewRedisClient cfg = (Some c, None) ->
  maxItemSize (base c) = MaxItemSize cfg + 2 ^ 64 /\
  2 ^ 63 <= maxItemSize (base c) < 2 ^ 64 /\
  (Endpoint cfg <> "" -> 0 < MaxAsyncConcurrency cfg -> Validate cfg = None).
Proof.
  intros Hm. unfold NewRedisClient.
  destruct (if TLSEnabled cfg then _ else _); [done | ].
  intros [= <-].
  assert (E : uint64 (MaxItemSize cfg) = MaxItemSize cfg + 2 ^ 64).
  { unfold uint64. symmetry. apply (Z.mod_unique _ _ (-1)); lia. }
  split; [ | split ].
  - by case_decide.
  - assert (maxItemSize
              (base (if decide (MaxGetMultiConcurrency cfg > 0)
                     then {| base := newBaseClient (uint64 (MaxItemSize cfg))
                                       (MaxAsyncBufferSize cfg) (MaxAsyncConcurrency cfg);
                             config := cfg;
                             getMultiGate := Some (gate_New (MaxGetMultiConcurrency cfg));
                             closed := false |}
                     else {| base := newBaseClient (uint64 (MaxItemSize cfg))
                                       (MaxAsyncBufferSize cfg) (MaxAsyncConcurrency cfg);
                             config := cfg; getMultiGate := None; closed := false |}))
            = uint64 (MaxItemSize cfg)) as -> by (by case_decide).
    rewrite E. lia.
  - intros He Ha. unfold Validate. rewrite decide_False by done.
    by rewrite decide_False by lia.
Qed.

(** The witness of X2: a ceiling of -1. *)
Lemma negative_MaxItemSize_wraps_witness :
  maxItemSize (base (exampleClient (-1) 100 100)) = 2 ^ 64 - 1.
Proof.
  destruct (negative_MaxItemSize_wraps (exampleConfig (-1) 100 100)
              (exampleClient (-1) 100 100)) as (H & _).
  - vm_compute. split; [discriminate | reflexivity].
  - apply NewRedisClient_exampleConfig.
  - rewrite H. reflexivity.
Defined.

(** ** When [GetMulti] panics, and what it returns when the backend is down *)

Lemma getMultiBatch_panics_iff (env : callEnv) (keys : list string) (a b : nat)
    (st : callState) :
  (a <= b <= length keys)%nat ->
  getMultiBatch env keys a b st = Panics <-> overlong env keys (a, b).
Proof.
  intros Hab. unfold getMultiBatch, sliceKeys, overlong. simpl.
  rewrite decide_True by done.
  destruct (MGet env a (sliceOf keys a b)) as [resp [e|]] eqn:E; simpl.
  - split; [done | by intros [? _]].
  - destruct (decide (length resp <= length (sliceOf keys a b))%nat) as [Hle|Hgt].
    + destruct (mergeLoop_spec (length resp) 0 (sliceOf keys a b) resp (results st))
        as (m' & Em & _); [lia | ].
      rewrite Em. split; [done | intros [_ ?]; lia].
    + rewrite mergeLoop_panics by lia. split; [intros _; split; [done | lia] | done].
Qed.

Lemma runBatches_panics_iff (env : callEnv) (keys : list string)
    (rs : list (nat * nat)) :
  inBounds (length keys) rs ->
  forall st,
  runBatches (getMultiBatch env keys) rs st = Panics <->
  exists r, r ∈ rs /\ overlong env keys r.
Proof.
  induction rs as [|[a b] rs IH]; intros Hin st.
  - simpl. split; [done | ]. intros (r & Hr & _). by apply elem_of_nil in Hr.
  - simpl.
    pose proof (getMultiBatch_panics_iff env keys a b st
                  (Hin (a, b) (list_elem_of_here _ _))) as Hhead.
    assert (Hin' : inBounds (length keys) rs)
      by (intros r Hr; apply Hin; by apply list_elem_of_further).
    destruct (getMultiBatch env keys a b st) as [[st1 e1]|] eqn:E1.
    + specialize (IH Hin' st1).
      destruct (runBatches (getMultiBatch env keys) rs st1) as [[st2 e2]|] eqn:E2.
      * split; [done | ]. intros (r & Hr & Ho).
        apply elem_of_cons in Hr as [-> | Hr].
        -- by apply Hhead in Ho.
        -- assert (Returns (st2, e2) = (Panics : outcome (callState * option error)))
             by (apply IH; eauto). done.
      * split; [ | done]. intros _.
        destruct (proj1 IH eq_refl) as (r & Hr & Ho).
        exists r. split; [by apply list_elem_of_further | done].
    + split; [ | done]. intros _. exists (a, b).
      split; [apply list_elem_of_here | by apply Hhead].
Qed.

(** X3.  On a request with keys, [GetMulti] panics exactly when one of the
    batches that run gets, from an [MGet] that reports no error, a response
    with more elements than the batch has keys (the loop then indexes
    [currentKeys] out of range).  Failing batches and responses that are
    too short never make it panic: in every other case it returns a
    non-nil map. *)
Theorem GetMulti_panics_iff_overlong_response (c : redisClient) (env : callEnv)
    (keys : list string) :
  keys <> [] ->
  (GetMulti c env keys = Panics <->
     exists r, r ∈ batches c env keys /\ overlong env keys r) /\
  ((forall r, r ∈ batches c env keys -> ~ overlong env keys r) ->
     exists m calls, GetMulti c env keys = Returns (Some m, calls)).
Proof.
  intros Hne.
  assert (Hiff : GetMulti c env keys = Panics <->
                 exists r, r ∈ batches c env keys /\ overlong env keys r).
  { unfold GetMulti. rewrite decide_False by (by destruct keys).
    pose proof (batches_inBounds c env keys) as Hin.
    unfold doWithBatch, batches in *.
    destruct (decide (GetMultiBatchSize (config c) <= 0)) as [Hb|Hb].
    - pose proof (getMultiBatch_panics_iff env keys 0 (length keys)
                    {| results := ∅; mgetCalls := [] |} ltac:(lia)) as Hp.
      destruct (getMultiBatch env keys 0 (length keys) _) as [[st' [e|]]|] eqn:E.
      + split; [done | ]. intros (r & Hr & Ho).
        apply list_elem_of_singleton in Hr as ->. by apply Hp in Ho.
      + split; [done | ]. intros (r & Hr & Ho).
        apply list_elem_of_singleton in Hr as ->. by apply Hp in Ho.
      + split; [ | done]. intros _. exists (O, length keys).
        split; [apply list_elem_of_here | by apply Hp].
    - set (rs := completedBatches env (length keys) (GetMultiBatchSize (config c))
                   (getMultiGate c)) in *.
      pose proof (runBatches_panics_iff env keys (schedule (choice env) rs)
                    (fun r Hr => Hin r (proj1 (elem_of_schedule _ _ _) Hr))
                    {| results := ∅; mgetCalls := [] |}) as Hp.
      destruct (runBatches (getMultiBatch env keys) (schedule (choice env) rs) _)
        as [[st' e]|] eqn:E.
      + assert (Hno : ~ exists r, r ∈ rs /\ overlong env keys r).
        { intros (r & Hr & Ho).
          assert (Returns (st', e) = (Panics : outcome (callState * option error)))
            by (apply Hp; exists r; split; [by apply elem_of_schedule | done]).
          done. }
        destruct (if (dispatched _ _ _ _).2 then None else e); split; done.
      + split; [ | done]. intros _.
        destruct (proj1 Hp eq_refl) as (r & Hr & Ho).
        exists r. split; [by apply elem_of_schedule in Hr | done]. }
  split; [exact Hiff | ].
  intros Hno.
  destruct (GetMulti c env keys) as [[o calls]|] eqn:E.
  - destruct (GetMulti_not_nil c env keys o calls Hne E) as [m ->]. by exists m, calls.
  - destruct (proj1 Hiff eq_refl) as (r & Hr & Ho). by destruct (Hno r Hr).
Qed.

(** The witness of X3: a response one longer than its batch, and a
    backend that keeps its contract. *)
Lemma GetMulti_panics_iff_overlong_response_witness :
  GetMulti (exampleClient 0 0 2) longReplyEnv ["a"; "b"; "c"] = Panics /\
  exists m calls,
    GetMulti (exampleClient 0 0 2) (echoEnv 0 []) ["a"; "b"; "c"]
      = Returns (Some m, calls).
Proof.
  split.
  - destruct (GetMulti_panics_iff_overlong_response (exampleClient 0 0 2)
                longReplyEnv ["a"; "b"; "c"]) as [H _]; [done | ].
    apply H. exists (0, 2)%nat. split; [apply list_elem_of_here | ].
    split; [reflexivity | simpl; lia].
  - destruct (GetMulti_panics_iff_overlong_response (exampleClient 0 0 2)
                (echoEnv 0 []) ["a"; "b"; "c"]) as [_ H]; [done | ].
    apply H. intros r _ [_ Ho].
    pose proof (echoEnv_respFits 0 [] r.1 (sliceOf ["a"; "b"; "c"] r.1 r.2) eq_refl).
    lia.
Defined.

Lemma runBatches_all_fail (env : callEnv) (keys : list string) (rs : list (nat * nat)) :
  inBounds (length keys) rs ->
  (forall r, r ∈ rs -> batchFails env keys r) ->
  forall st,
  runBatches (getMultiBatch env keys) rs st =
    Returns ({| results := results st;
                mgetCalls := mgetCalls st ++
                             ((fun r : nat * nat => sliceOf keys r.1 r.2) <$> rs) |},
             None).
Proof.
  induction rs as [|[a b] rs IH]; intros Hin Hf st.
  - simpl. rewrite app_nil_r. by destruct st.
  - simpl. unfold getMultiBatch at 1. unfold sliceKeys.
    rewrite decide_True by (apply (Hin (a, b)), list_elem_of_here).
    pose proof (Hf (a, b) (list_elem_of_here _ _)) as Hfa.
    unfold batchFails in Hfa. simpl in Hfa.
    destruct (MGet env a (sliceOf keys a b)) as [resp [e|]]; [ | done].
    rewrite IH.
    + simpl. by rewrite <- app_assoc.
    + intros r Hr. apply Hin. by apply list_elem_of_further.
    + intros r Hr. apply Hf. by apply list_elem_of_further.
Qed.

(** X4.  When the [MGet] of every batch fails (the backend is down),
    [GetMulti] on a request with keys still invokes the backend once per
    batch and returns the empty, non-nil map: no error and no nil reach the
    caller.  The nil map is returned on an empty request only. *)
Theorem GetMulti_all_batches_fail (c : redisClient) (env : callEnv)
    (keys : list string) :
  keys <> [] ->
  (forall r, r ∈ batches c env keys -> batchFails env keys r) ->
  GetMulti c env keys =
    Returns (Some ∅,
             (fun r : nat * nat => sliceOf keys r.1 r.2) <$>
               schedule (choice env) (batches c env keys)).
Proof.
  intros Hne Hf. unfold GetMulti. rewrite decide_False by (by destruct keys).
  pose proof (batches_inBounds c env keys) as Hin.
  unfold doWithBatch, batches in *.
  destruct (decide (GetMultiBatchSize (config c) <= 0)) as [Hb|Hb].
  - pose proof (runBatches_all_fail env keys [(O, length keys)] Hin Hf
                  {| results := ∅; mgetCalls := [] |}) as E.
    simpl in E. rewrite schedule_singleton.
    destruct (getMultiBatch env keys 0 (length keys) _) as [[st' [e|]]|];
      [done | | done].
    by injection E as ->.
  - rewrite runBatches_all_fail.
    + by destruct (dispatched _ _ _ _).2.
    + intros r Hr. apply Hin. by apply elem_of_schedule in Hr.
    + intros r Hr. apply Hf. by apply elem_of_schedule in Hr.
Qed.

(** The witness of X4: three keys in batches of two on a backend that is
    down. *)
Lemma GetMulti_all_batches_fail_witness :
  GetMulti (exampleClient 0 0 2) (downEnv []) ["a"; "b"; "c"]
    = Returns (Some ∅, [["a"; "b"]; ["c"]]).
Proof.
  apply (GetMulti_all_batches_fail (exampleClient 0 0 2) (downEnv []) ["a"; "b"; "c"]).
  - done.
  - intros r _. unfold batchFails. simpl. discriminate.
Defined.

(** ** The merge loop in closed form *)

Lemma foldl_insert_notin (l : list (string * list byte)) :
  forall (m : gmap string (list byte)) (key : string),
  key ∉ l.*1 ->
  foldl (fun m kv => <[kv.1 := kv.2]> m) m l !! key = m !! key.
Proof.
  induction l as [|[k v] l IH]; intros m key Hk; simpl; [done | ].
  simpl in Hk. apply not_elem_of_cons in Hk as [Hne Hk].
  rewrite IH by done. by rewrite lookup_insert_ne.
Qed.

Lemma foldl_insert_last (l1 l2 : list (string * list byte))
    (m : gmap string (list byte)) (key : string) (v : list byte) :
  key ∉ l2.*1 ->
  foldl (fun m kv => <[kv.1 := kv.2]> m) m (l1 ++ (key, v) :: l2) !! key = Some v.
Proof.
  intros Hk. rewrite foldl_app. simpl.
  rewrite foldl_insert_notin by done. apply lookup_insert_eq.
Qed.

Lemma mergeLoop_foldl (ks : list string) (resp : list reply) (n : nat) :
  forall (i : nat) (m : gmap string (list byte)),
  (i + n <= length ks)%nat ->
  mergeLoop n i ks resp m =
    Returns (foldl (fun m kv => <[kv.1 := kv.2]> m) m
               (omap hitOf (take n (drop i (zip ks resp))))).
Proof.
  induction n as [|n IH]; intros i m Hlen; [done | ].
  cbn [mergeLoop].
  destruct (lookup_lt_is_Some_2 ks i) as [key Hkey]; [lia | ]. rewrite Hkey.
  destruct (resp !! i) as [r|] eqn:Hr.
  - assert (Hz : zip ks resp !! i = Some (key, r))
      by (rewrite lookup_zip_with, Hkey, Hr; done).
    rewrite (drop_S _ _ _ Hz). cbn [take].
    destruct r as [val| |z]; cbn [omap list_omap hitOf snd fst foldl].
    + rewrite IH by lia. by rewrite stringToBytes_eq.
    + by rewrite IH by lia.
    + by rewrite IH by lia.
  - assert (Hz : zip ks resp !! i = None)
      by (rewrite lookup_zip_with, Hkey, Hr; done).
    apply lookup_ge_None in Hz.
    rewrite IH by lia. rewrite !drop_ge by lia. by rewrite !take_nil.
Qed.

Lemma hit_after (ks : list string) (resp : list reply) (j : nat) (key : string) :
  key ∈ (omap hitOf (drop j (zip ks resp))).*1 ->
  exists j' val, (j <= j')%nat /\ ks !! j' = Some key /\
                 resp !! j' = Some (RString val).
Proof.
  intros Hk. apply list_elem_of_fmap in Hk as ([k v] & -> & Hkv).
  apply list_elem_of_omap in Hkv as ([k' r] & Hx & Hh).
  apply list_elem_of_lookup in Hx as (t & Ht). rewrite lookup_drop in Ht.
  apply lookup_zip_with_Some in Ht as (x & y & [= -> ->] & Hx & Hy).
  unfold hitOf in Hh. simpl in Hh. destruct y as [val| |z]; try done.
  injection Hh as -> _. exists (j + t)%nat, val. split; [lia | done].
Qed.

(** X5.  On a response no longer than its batch, the loop of [GetMulti]
    inserts the string replies in the order of the positions: within a
    batch the last string reply for a key is the one kept, a nil or
    unexpected reply never removes or replaces an entry, and a key without
    a string reply keeps what the map held for it. *)
Theorem mergeLoop_last_string_reply_wins (ks : list string) (resp : list reply)
    (m : gmap string (list byte)) :
  (length resp <= length ks)%nat ->
  exists m',
    mergeLoop (length resp) 0 ks resp m = Returns m' /\
    m' = foldl (fun m kv => <[kv.1 := kv.2]> m) m (hitsOf ks resp) /\
    (forall j key val,
       ks !! j = Some key -> resp !! j = Some (RString val) ->
       (forall j' val', (j < j')%nat -> ks !! j' = Some key ->
          resp !! j' <> Some (RString val')) ->
       m' !! key = Some (bytesOfString val)) /\
    (forall key,
       (forall j val, ks !! j = Some key -> resp !! j <> Some (RString val)) ->
       m' !! key = m !! key).
Proof.
  intros Hlen. eexists. split; [ | split; [reflexivity | split ] ].
  - rewrite mergeLoop_foldl by lia. rewrite drop_0.
    rewrite take_ge by (rewrite length_zip_with; lia). done.
  - intros j key val Hk Hr Hlast. unfold hitsOf.
    assert (Hz : zip ks resp !! j = Some (key, RString val))
      by (rewrite lookup_zip_with, Hk, Hr; done).
    rewrite <- (take_drop_middle _ _ _ Hz), omap_app.
    cbn [omap list_omap hitOf snd fst].
    apply foldl_insert_last. intros Hin.
    apply hit_after in Hin as (j' & val' & Hj' & Hk' & Hr').
    by apply (Hlast j' val'); [lia | | ].
  - intros key Hnone. unfold hitsOf. apply foldl_insert_notin. intros Hin.
    rewrite <- (drop_0 (zip ks resp)) in Hin.
    apply hit_after in Hin as (j' & val' & _ & Hk' & Hr').
    by apply (Hnone j' val').
Qed.

(** The witness of X5: the key ["a"] twice in one batch, the second reply
    nil; and twice with two strings. *)
Lemma mergeLoop_last_string_reply_wins_witness :
  mergeLoop 2 0 ["a"; "a"] [RString "x"; RNil] ∅ = Returns {[ "a" := [x78]%byte ]} /\
  mergeLoop 2 0 ["a"; "a"] [RString "x"; RString "y"] ∅
    = Returns {[ "a" := [x79]%byte ]}.
Proof.
  split.
  - destruct (mergeLoop_last_string_reply_wins ["a"; "a"] [RString "x"; RNil] ∅)
      as (m' & E & -> & _); [simpl; lia | ].
    exact E.
  - destruct (mergeLoop_last_string_reply_wins ["a"; "a"]
                [RString "x"; RString "y"] ∅) as (m' & E & -> & _); [simpl; lia | ].
    exact E.
Defined.

(** ** The metrics of the read path *)

Lemma mergeLoopMetered_eq (ks : list string) (resp : list reply) (n : nat) :
  forall (i : nat) (m : gmap string (list byte)) (acc : nat),
  mergeLoopMetered n i ks resp m acc =
    match mergeLoop n i ks resp m with
    | Panics => Panics
    | Returns m' => Returns (m', (acc + hitBytes (take n (drop i resp)))%nat)
    end.
Proof.
  induction n as [|n IH]; intros i m acc.
  - simpl. by rewrite Nat.add_0_r.
  - cbn [mergeLoopMetered mergeLoop].
    destruct (ks !! i) as [key|]; [ | done].
    destruct (resp !! i) as [r|] eqn:Hr.
    + rewrite (drop_S _ _ _ Hr). cbn [take].
      destruct r as [val| |z]; rewrite IH; cbn [hitBytes foldr];
        destruct (mergeLoop _ _ _ _ _); try done.
      by rewrite Nat.add_assoc.
    + rewrite IH. apply lookup_ge_None in Hr.
      rewrite !drop_ge by lia. by rewrite !take_nil.
Qed.

Lemma hitBytes_hitsOf (resp : list reply) :
  forall ks : list string, (length resp <= length ks)%nat ->
  hitBytes resp = sum_list (length <$> (hitsOf ks resp).*2).
Proof.
  unfold hitsOf.
  induction resp as [|r resp IH]; intros ks Hlen; [by destruct ks | ].
  destruct ks as [|k ks]; [simpl in Hlen; lia | ].
  simpl in Hlen. cbn [zip_with hitBytes foldr].
  fold (hitBytes resp). specialize (IH ks ltac:(lia)).
  destruct r as [val| |z]; cbn [omap list_omap hitOf snd fst]; [ | done | done].
  rewrite !fmap_cons. cbn [sum_list sum_list_with snd].
  by rewrite length_bytesOfString, IH.
Qed.

(** X6.  The loop with its byte counter computes the same map as the loop
    without, and panics in the same cases; the counter it hands to the
    data-size histogram is the total byte length of the string replies of
    the batch.  Every string reply is counted, also one whose entry a
    later reply for the same key replaces. *)
Theorem cacheHitBytes_counts_every_string_reply (ks : list string)
    (resp : list reply) (m : gmap string (list byte)) :
  mergeLoopMetered (length resp) 0 ks resp m 0 =
    match mergeLoop (length resp) 0 ks resp m with
    | Panics => Panics
    | Returns m' => Returns (m', hitBytes resp)
    end /\
  ((length resp <= length ks)%nat ->
   hitBytes resp = sum_list (length <$> (hitsOf ks resp).*2)).
Proof.
  split.
  - rewrite mergeLoopMetered_eq, drop_0, take_ge by done. done.
  - apply hitBytes_hitsOf.
Qed.

(** The witness of X6: two string replies for one key count 1 + 2 bytes,
    though the map keeps the second only. *)
Lemma cacheHitBytes_counts_every_string_reply_witness :
  mergeLoopMetered 2 0 ["a"; "a"] [RString "x"; RString "yz"] ∅ 0
    = Returns ({[ "a" := [x79; x7a]%byte ]}, 3%nat) /\
  hitBytes [RString "x"; RString "yz"] = 3%nat.
Proof.
  destruct (cacheHitBytes_counts_every_string_reply ["a"; "a"]
              [RString "x"; RString "yz"] ∅) as [H1 H2].
  split; [exact H1 | ].
  rewrite H2 by (simpl; lia). reflexivity.
Defined.






(** ** Independence of the schedule and of the batching *)

Lemma respFits_withChoice (env : callEnv) (choice : list nat) :
  respFits env -> respFits (withChoice env choice).
Proof. intros H start ks. apply (H start ks). Qed.

(** X8.  When the string replies for equal keys agree (as they do when no
    key is repeated), the map that [GetMulti] returns does not depend on
    the order in which the concurrent batches merge their results: under
    any other schedule the call returns the same map, after the same
    backend invocations in some order. *)
Theorem GetMulti_schedule_independent (c : redisClient) (env : callEnv)
    (keys : list string) (choice' : list nat) :
  respFits env ->
  (forall i j key val val',
     keys !! i = Some key -> keys !! j = Some key ->
     replyOf c env keys i = Some (RString val) ->
     replyOf c env keys j = Some (RString val') -> val = val') ->
  exists o calls calls',
    GetMulti c env keys = Returns (o, calls) /\
    GetMulti c (withChoice env choice') keys = Returns (o, calls') /\
    calls ≡ₚ calls'.
Proof.
  intros Hfit Hcons. destruct keys as [|k0 keys].
  - by exists None, [], [].
  - set (ks := k0 :: keys) in *.
    destruct (GetMulti_spec c env ks) as (m & E & HA & HB); [done | done | ].
    destruct (GetMulti_spec c (withChoice env choice') ks)
      as (m' & E' & HA' & HB'); [done | by apply respFits_withChoice | ].
    change (replyOf c (withChoice env choice') ks) with (replyOf c env ks) in *.
    change (batches c (withChoice env choice') ks) with (batches c env ks) in *.
    assert (m = m') as <-.
    { apply map_eq. intros key.
      destruct (m !! key) as [v|] eqn:Hv; destruct (m' !! key) as [v'|] eqn:Hv';
        try done.
      - destruct (HA key v Hv) as (i & val & Hk & Hr & ->).
        destruct (HA' key v' Hv') as (j & val' & Hk' & Hr' & ->).
        by rewrite (Hcons i j key val val').
      - destruct (HA key v Hv) as (i & val & Hk & Hr & _).
        destruct (HB' i key val Hk Hr) as [w Hw]. congruence.
      - destruct (HA' key v' Hv') as (j & val' & Hk' & Hr' & _).
        destruct (HB j key val' Hk' Hr') as [w Hw]. congruence. }
    eexists (Some m), _, _. split; [exact E | ]. split; [exact E' | ].
    simpl. by rewrite !schedule_Permutation.
Qed.

(** The witness of X8: four distinct keys in batches of two, merged in
    either order. *)
Lemma GetMulti_schedule_independent_witness :
  exists o calls calls',
    GetMulti (exampleClient 0 0 2) (echoEnv 0 []) ["a"; "b"; "c"; "d"]
      = Returns (o, calls) /\
    GetMulti (exampleClient 0 0 2) (withChoice (echoEnv 0 []) [1%nat])
      ["a"; "b"; "c"; "d"] = Returns (o, calls') /\
    calls ≡ₚ calls'.
Proof.
  apply (GetMulti_schedule_independent (exampleClient 0 0 2) (echoEnv 0 [])
           ["a"; "b"; "c"; "d"] [1%nat]).
  - apply echoEnv_respFits.
  - intros i j key val val' Hi Hj.
    assert (NoDup ["a"; "b"; "c"; "d"]) as Hnd
      by (apply (bool_decide_unpack _); vm_compute; exact I).
    rewrite (NoDup_lookup _ i j key Hnd Hi Hj). congruence.
Defined.

(** The agreement of the replies is needed: when a key lies in two
    batches whose replies differ, the batch that merges last decides. *)
Lemma GetMulti_schedule_dependent :
  GetMulti (exampleClient 0 0 1) (driftEnv []) ["a"; "a"]
    = Returns (Some {[ "a" := [x6e; x65; x77]%byte ]}, [["a"]; ["a"]]) /\
  GetMulti (exampleClient 0 0 1) (driftEnv [1%nat]) ["a"; "a"]
    = Returns (Some {[ "a" := [x6f; x6c; x64]%byte ]}, [["a"]; ["a"]]).
Proof. split; reflexivity. Qed.

Lemma storeEnv_respFits (store : string -> reply) (gs : nat -> option error)
    (comp : nat -> bool) (ch : list nat) :
  respFits (storeEnv store gs comp ch).
Proof. intros start ks _. simpl. by rewrite length_fmap. Qed.

(** In a call that is not cut short every position lies in a batch. *)
Lemma batches_cover (c : redisClient) (env : callEnv) (keys : list string) (i : nat) :
  getMultiGate c = None \/ (forall n, gateStart env n = None) ->
  (i < length keys)%nat ->
  exists r, r ∈ batches c env keys /\ holds i r = true.
Proof.
  intros Hgate Hi. unfold batches.
  destruct (decide (GetMultiBatchSize (config c) <= 0)) as [Hb|Hb].
  - exists (O, length keys). split; [apply list_elem_of_here | ].
    apply holds_spec. simpl. lia.
  - set (B := Z.to_nat (GetMultiBatchSize (config c))).
    assert (HB : (0 < B)%nat) by (unfold B; lia).
    rewrite completedBatches_all; [ | lia | ].
    2: { destruct Hgate as [-> | Hall]; [done | ].
         destruct (getMultiGate c); [ | done]. simpl.
         apply grantedFrom_all. intros j _. apply Hall. }
    fold B. exists (batchRange (length keys) B (i / B)). split.
    + apply list_elem_of_fmap. exists (i / B)%nat. split; [done | ].
      apply elem_of_seq. split; [lia | ].
      destruct (decide (numBatches (length keys) B <= i / B)%nat) as [Hq|Hq]; [ | lia].
      apply numBatches_le in Hq; [ | done].
      pose proof (div_mod_bounds i B HB). lia.
    + by apply batchRange_holds.
Qed.

(** X9.  Against a backend with a fixed content that never fails, a call
    that is not cancelled returns exactly the content of the requested
    keys: a key has an entry iff it is requested and its stored value is a
    string, and the entry is the bytes of that string.  The batch size, the
    gate and the schedule make no difference, nor do repeated keys. *)
Theorem GetMulti_returns_stored_strings (c : redisClient) (store : string -> reply)
    (gs : nat -> option error) (comp : nat -> bool) (ch : list nat)
    (keys : list string) :
  getMultiGate c = None \/ (forall n, gs n = None) ->
  exists o calls,
    GetMulti c (storeEnv store gs comp ch) keys = Returns (o, calls) /\
    forall key,
      lookupResult o key =
        if decide (key ∈ keys) then
          match store key with
          | RString val => Some (bytesOfString val)
          | _ => None
          end
        else None.
Proof.
  intros Hgate. set (env := storeEnv store gs comp ch).
  destruct (GetMulti_lookup c env keys (storeEnv_respFits _ _ _ _))
    as (o & calls & E & _ & HA & HB).
  exists o, calls. split; [exact E | ].
  assert (Hrep : forall i key, keys !! i = Some key ->
                   replyOf c env keys i = Some (store key)).
  { intros i key Hk.
    destruct (batches_cover c env keys i Hgate) as (r & Hr & Hh);
      [by eapply lookup_lt_Some | ].
    rewrite (replyIn_replyOf c env keys r i Hr Hh).
    apply holds_spec in Hh. unfold replyIn. simpl.
    rewrite list_lookup_fmap, sliceOf_lookup by lia.
    replace (r.1 + (i - r.1))%nat with i by lia. by rewrite Hk. }
  intros key. case_decide as Hin.
  - apply list_elem_of_lookup in Hin as (i & Hk).
    destruct (lookupResult o key) as [v|] eqn:Hv.
    + destruct (HA key v Hv) as (j & val & Hj & Hr & ->).
      rewrite (Hrep j key Hj) in Hr. injection Hr as ->.
      by rewrite stringToBytes_eq.
    + destruct (store key) as [val| |z] eqn:Hs; try done.
      destruct (HB i key val Hk) as [w Hw]; [by rewrite (Hrep i key Hk), Hs | ].
      congruence.
  - destruct (lookupResult o key) as [v|] eqn:Hv; [ | done].
    destruct (HA key v Hv) as (j & val & Hj & _).
    destruct Hin. apply list_elem_of_lookup. eauto.
Qed.

(** The witness of X9: a gate that grants every permit. *)
Lemma GetMulti_returns_stored_strings_witness :
  exists o calls,
    GetMulti (exampleClient 0 5 2) (storeEnv echoReply (fun _ => None) (fun _ => true) [])
      ["a"; "miss"; "a"] = Returns (o, calls) /\
    lookupResult o "a" = Some [x61]%byte /\ lookupResult o "miss" = None.
Proof.
  destruct (GetMulti_returns_stored_strings (exampleClient 0 5 2) echoReply
              (fun _ => None) (fun _ => true) [] ["a"; "miss"; "a"])
    as (o & calls & E & H); [by right | ].
  exists o, calls. split; [exact E | ].
  split; [rewrite (H "a") | rewrite (H "miss")]; reflexivity.
Defined.

(** ** The conversion aliases the string *)

Lemma readBytes_length (n : nat) :
  forall (mem : gmap Z byte) (p : Z) (bs : list byte),
  Unsafe.readBytes mem p n = Some bs -> length bs = n.
Proof.
  induction n as [|n IH]; intros mem p bs; simpl; [by intros [= <-] | ].
  destruct (mem !! p); [ | done].
  destruct (Unsafe.readBytes mem (p + 1) n) as [bs'|] eqn:E; [ | done].
  intros [= <-]. simpl. by rewrite (IH _ _ _ E).
Qed.

Lemma readBytes_insert_within (n : nat) :
  forall (mem : gmap Z byte) (p : Z) (i : nat) (b : byte) (bs : list byte),
  Unsafe.readBytes mem p n = Some bs -> (i < n)%nat ->
  Unsafe.readBytes (<[p + Z.of_nat i := b]> mem) p n = Some (<[i := b]> bs).
Proof.
  induction n as [|n IH]; intros mem p i b bs Hr Hi; [lia | ].
  simpl in *. destruct (mem !! p) as [x|] eqn:Hx; [ | done].
  destruct (Unsafe.readBytes mem (p + 1) n) as [bs'|] eqn:E; [ | done].
  injection Hr as <-. destruct i as [|i].
  - rewrite Z.add_0_r, lookup_insert_eq.
    rewrite readBytes_insert_below by lia. by rewrite E.
  - rewrite lookup_insert_ne by lia. rewrite Hx.
    replace (p + Z.of_nat (S i)) with (p + 1 + Z.of_nat i) by lia.
    rewrite (IH mem (p + 1) i b bs' E) by lia. done.
Qed.

(** X10.  The slice that [stringToBytes] returns aliases the string: a
    byte written through the slice, at an index within its length, is the
    byte then read from the string at that index.  (A copy would leave the
    string as it was.) *)
Theorem stringToBytes_aliases_string (mem : gmap Z byte) (s : Unsafe.stringHeader)
    (bs : list byte) (i : nat) (b : byte) :
  Unsafe.stringContents mem s = Some bs -> (i < length bs)%nat ->
  let mem' := <[Unsafe.Data (Unsafe.stringToBytes s) + Z.of_nat i := b]> mem in
  Unsafe.sliceContents mem' (Unsafe.stringToBytes s) = Some (<[i := b]> bs) /\
  Unsafe.stringContents mem' s = Some (<[i := b]> bs).
Proof.
  intros Hs Hi mem'. unfold Unsafe.stringContents in *.
  pose proof (readBytes_length _ _ _ _ Hs) as Hlen.
  assert (Unsafe.readBytes mem' (Unsafe.strData s) (Z.to_nat (Unsafe.strLen s))
          = Some (<[i := b]> bs)) as H
    by (apply readBytes_insert_within; [done | lia]).
  split; exact H.
Qed.

(** The witness of X10: the second byte of ["hit"] overwritten through the
    slice. *)
Lemma stringToBytes_aliases_string_witness :
  let '(mem, s) := Unsafe.allocString ∅ 4096 "hit" in
  Unsafe.stringContents
    (<[Unsafe.Data (Unsafe.stringToBytes s) + 1 := x6f%byte]> mem) s
    = Some [x68; x6f; x74]%byte.
Proof.
  apply (stringToBytes_aliases_string (Unsafe.allocString ∅ 4096 "hit").1
           (Unsafe.allocString ∅ 4096 "hit").2 [x68; x69; x74]%byte 1 x6f%byte).
  - reflexivity.
  - simpl. lia.
Defined.
